(** * A doodle-to-melody music box (script.js)

    The page stores the dots a user paints on a canvas and, on "play",
    turns them into scheduled tones: the dots are sorted by [x], quantised
    into 32 time slots, one representative dot per slot is kept (the
    topmost one), its height is mapped onto two octaves of a scale picked
    by its colour, and a five-oscillator tone is scheduled for it.

    This file embeds that logic and proves the properties stated for it.
    Painting on the canvas and the wiring of the DOM events are left out:
    a pointer position arrives as a pair of coordinates, and what the
    handler reads from the page when it runs (canvas size, brush bounds,
    audio clock) is gathered in a record.

    Numbers.  JavaScript numbers are IEEE-754 doubles.  They are modelled
    here by exact rationals extended with [+Infinity], [-Infinity] and
    [NaN], so that a division by zero behaves as in the source; rounding
    of the finite values and the sign of zero are abstracted away (a zero
    divisor counts as [+0], which is what [inMax - inMin] evaluates to at
    the call sites of [mapRange] when the two bounds coincide).

    Rounding matters in two places, where the handler floors a value of
    [mapRange]: the slot of a sample and the scale degree of a note.  There
    the floor of the rounded quotient can be one more than the floor of
    the exact one.  These two lines are modelled a second time on binary64
    numbers ([B64], [mapRange_b64]), and the pass of the click handler is
    also given over an arbitrary evaluation of [mapRange].  Where a
    statement depends on the side of an integer such a quotient falls on,
    it is made of the double-precision model, of the pass over any
    evaluation, or of samples on whole pixels, for which the two
    evaluations are shown to agree on the page's canvas. *)

From stdpp Require Import prelude strings sorting.
From Stdlib Require Import Ascii QArith Qround Lqa.
From Stdlib Require Import Floats.PrimFloat Floats.SpecFloat Floats.FloatOps.
From Stdlib Require Import Numbers.Cyclic.Int63.Uint63.

(** ** JavaScript numbers *)

Module JS.

Inductive number : Type :=
| Fin (q : Q)
| PosInf
| NegInf
| NaN.

(** An integer literal or an integer-valued property such as
    [array.length]. *)
Definition int (z : Z) : number := Fin (inject_Z z).

Definition inf_of (c : comparison) : number :=
  match c with Gt => PosInf | Lt => NegInf | Eq => NaN end.

Definition sign (a : number) : comparison :=
  match a with
  | Fin q => (q ?= 0)%Q
  | PosInf => Gt
  | NegInf => Lt
  | NaN => Eq
  end.

Definition sign_mul (c d : comparison) : comparison :=
  match c, d with
  | Eq, _ | _, Eq => Eq
  | Gt, Gt | Lt, Lt => Gt
  | _, _ => Lt
  end.

Definition neg (a : number) : number :=
  match a with
  | Fin q => Fin (- q)
  | PosInf => NegInf
  | NegInf => PosInf
  | NaN => NaN
  end.

Definition add (a b : number) : number :=
  match a, b with
  | NaN, _ | _, NaN => NaN
  | Fin p, Fin q => Fin (p + q)
  | PosInf, NegInf | NegInf, PosInf => NaN
  | PosInf, _ | _, PosInf => PosInf
  | NegInf, _ | _, NegInf => NegInf
  end.

Definition sub (a b : number) : number := add a (neg b).

Definition mul (a b : number) : number :=
  match a, b with
  | NaN, _ | _, NaN => NaN
  | Fin p, Fin q => Fin (p * q)
  | _, _ => inf_of (sign_mul (sign a) (sign b))
  end.

(** [a / b].  A finite value divided by zero is an infinity of the sign
    of the dividend, and [0 / 0] is [NaN]. *)
Definition div (a b : number) : number :=
  match a, b with
  | NaN, _ | _, NaN => NaN
  | Fin p, Fin q => if Qeq_bool q 0 then inf_of (p ?= 0)%Q else Fin (p / q)
  | Fin _, _ => Fin 0
  | _, Fin q =>
      inf_of (sign_mul (sign a) (if Qle_bool 0 q then Gt else Lt))
  | _, _ => NaN
  end.

(** Truncation towards zero, used by the remainder. *)
Definition Qtrunc (q : Q) : Z :=
  if Qle_bool 0 q then Qfloor q else Qceiling q.

(** [a % b]: the remainder has the sign of the dividend. *)
Definition rem (a b : number) : number :=
  match a, b with
  | Fin p, Fin q =>
      if Qeq_bool q 0 then NaN else Fin (p - q * inject_Z (Qtrunc (p / q)))
  | Fin p, (PosInf | NegInf) => Fin p
  | _, _ => NaN
  end.

(** [a < b] and [a >= b]; both are false as soon as one side is [NaN]. *)
Definition ltb (a b : number) : bool :=
  match a, b with
  | NaN, _ | _, NaN => false
  | Fin p, Fin q => negb (Qle_bool q p)
  | NegInf, (Fin _ | PosInf) => true
  | Fin _, PosInf => true
  | _, _ => false
  end.

Definition geb (a b : number) : bool :=
  match a, b with
  | NaN, _ | _, NaN => false
  | _, _ => negb (ltb a b)
  end.

Definition leb (a b : number) : bool := geb b a.

Definition Math_floor (a : number) : number :=
  match a with
  | Fin q => int (Qfloor q)
  | _ => a
  end.

Definition Math_min (a b : number) : number :=
  match a, b with
  | NaN, _ | _, NaN => NaN
  | _, _ => if ltb b a then b else a
  end.

Definition Math_max (a b : number) : number :=
  match a, b with
  | NaN, _ | _, NaN => NaN
  | _, _ => if ltb a b then b else a
  end.

(** A value read out of an array: [None] stands for [undefined]. *)
Definition value : Type := option number.

(** [arr[n]] on an array of integers: the element when [n] is an
    integer index inside the array, [undefined] otherwise. *)
Definition get (arr : list Z) (n : number) : value :=
  match n with
  | Fin q =>
      if Qeq_bool q (inject_Z (Qfloor q)) && Qle_bool 0 q
      then int <$> arr !! Z.to_nat (Qfloor q)
      else None
  | _ => None
  end.

(** The conversion an arithmetic operator applies to its operand:
    [undefined] becomes [NaN]. *)
Definition ToNumber (v : value) : number := default NaN v.

(** Equality of numbers up to the representation of a rational. *)
Definition eqv (a b : number) : Prop :=
  match a, b with
  | Fin p, Fin q => p == q
  | PosInf, PosInf | NegInf, NegInf | NaN, NaN => True
  | _, _ => False
  end.

End JS.

Import JS.

Declare Scope num_scope.
Delimit Scope num_scope with num.
Bind Scope num_scope with number.
Infix "+" := add : num_scope.
Infix "-" := sub : num_scope.
Infix "*" := mul : num_scope.
Infix "/" := div : num_scope.
Infix "%%" := rem (at level 40, left associativity) : num_scope.
Infix "<?" := ltb : num_scope.
Infix ">=?" := geb : num_scope.
Infix "<=?" := leb : num_scope.
Infix "=n=" := eqv (at level 70, no associativity).

Coercion Fin : Q >-> number.

(** ** The pitch mapping *)

(** [mapRange(value, inMin, inMax, outMin, outMax)]. *)
Definition mapRange (value inMin inMax outMin outMax : number) : number :=
  ((value - inMin) * (outMax - outMin) / (inMax - inMin) + outMin)%num.

Definition PENTATONIC_MAJOR_INTERVALS : list Z := [0; 2; 4; 7; 9]%Z.
Definition DIATONIC_MAJOR_INTERVALS : list Z := [0; 2; 4; 5; 7; 9; 11]%Z.

(** [String.prototype.toUpperCase].  A colour is a string of 8-bit
    characters, and only the ASCII letters are upper-cased.  The result is
    used for nothing but the comparison with the case labels of the
    [switch], and among these characters ['f'] is the only one, besides
    those of the labels themselves, whose upper case occurs in a label: the
    comparison comes out as with the full case mapping. *)
Definition upper_ascii (c : ascii) : ascii :=
  let n := N_of_ascii c in
  if ((97 <=? n) && (n <=? 122))%N then ascii_of_N (n - 32) else c.

Fixpoint toUpperCase (s : string) : string :=
  match s with
  | EmptyString => EmptyString
  | String c s' => String (upper_ascii c) (toUpperCase s')
  end.

Record ScaleSpec : Type := { octaveOffset : Z; scale : list Z }.

(** [getColorOctaveAndScale(color)]: the [switch] over the upper-cased
    colour, case by case.  The scale is never reassigned. *)
Definition getColorOctaveAndScale (color : string) : ScaleSpec :=
  let scale := DIATONIC_MAJOR_INTERVALS in
  let u := toUpperCase color in
  let octaveOffset :=
    if String.eqb u "#FF0000" then 0%Z
    else if String.eqb u "#00FF00" then 12%Z
    else if String.eqb u "#0000FF" then (-12)%Z
    else if String.eqb u "#FFFF00" then 0%Z
    else if String.eqb u "#000000" then 0%Z
    else 0%Z in
  {| octaveOffset := octaveOffset; scale := scale |}.

Definition baseMidiRootNote : Z := 60.

(** Lines 221-225 of the click handler: the scale degree a height is
    mapped to, for a scale of the given length. *)
Definition scaleDegreeIndexOf (scale : list Z) (y canvas_height : number)
  : number :=
  let numNotesInScaleDisplay := (int (Z.of_nat (length scale)) * int 2)%num in
  let scaleDegreeIndex :=
    Math_floor (mapRange y canvas_height (int 0) (int 0)
                  (numNotesInScaleDisplay - int 1)%num) in
  Math_max (int 0) (Math_min (numNotesInScaleDisplay - int 1)%num
                      scaleDegreeIndex).

(** Lines 221-230 of the click handler: the MIDI note for a height, once
    the colour has been resolved to [{ octaveOffset, scale }]. *)
Definition midiNoteIn (spec : ScaleSpec) (y canvas_height : number) : number :=
  let octaveOffset := octaveOffset spec in
  let scale := scale spec in
  let scale_length := int (Z.of_nat (length scale)) in
  let scaleDegreeIndex := scaleDegreeIndexOf scale y canvas_height in
  let octaveWithinCanvas := Math_floor (scaleDegreeIndex / scale_length)%num in
  let noteInScaleInterval := get scale (scaleDegreeIndex %% scale_length)%num in
  (int baseMidiRootNote + int octaveOffset + (octaveWithinCanvas * int 12)
   + ToNumber noteInScaleInterval)%num.

(** Lines 218-230: the MIDI note of a dot of the given colour at height
    [y]. *)
Definition currentMidiNoteOf (color : string) (y canvas_height : number)
  : number :=
  midiNoteIn (getColorOctaveAndScale color) y canvas_height.

(** ** The two floored quotients in double precision

    The model above computes with exact rationals.  That is harmless
    wherever only the order or the range of a value matters, since every
    operation on doubles is monotone; but a floor taken after a division
    can land on the other side of an integer once the quotient is rounded.
    The two places where the source floors a quotient, lines 202 and 224,
    are therefore modelled a second time on binary64 numbers, each
    operation rounded to nearest as JavaScript does. *)

Module B64.

(** The number a double stands for, as a number of the model. *)
Definition value (f : float) : number :=
  match Prim2SF f with
  | S754_zero _ => Fin 0
  | S754_infinity false => PosInf
  | S754_infinity true => NegInf
  | S754_nan => NaN
  | S754_finite s m e =>
      let magnitude :=
        match e with
        | Z0 => inject_Z (Z.pos m)
        | Z.pos k => inject_Z (Z.pos m * 2 ^ Z.pos k)
        | Z.neg k => Z.pos m # (2 ^ k)
        end in
      Fin (Qred (if s then - magnitude else magnitude))
  end.

(** An integer of the page (an array length, a canvas size, a whole pixel
    coordinate) as a double; exact below [2^53]. *)
Definition of_Z (z : Z) : float :=
  if (z <? 0)%Z then (- of_uint63 (Uint63.of_Z (- z)))%float
  else of_uint63 (Uint63.of_Z z).

(** The double nearest to a rational whose numerator and denominator are
    below [2^53] in absolute value, by one correctly rounded division; a
    rational that is a double is mapped to itself. *)
Definition of_Q (q : Q) : float := (of_Z (Qnum q) / of_Z (Z.pos (Qden q)))%float.

Definition of_number (n : number) : float :=
  match n with
  | Fin q => of_Q q
  | PosInf => infinity
  | NegInf => neg_infinity
  | NaN => nan
  end.

(** [mapRange(value, inMin, inMax, outMin, outMax)] on doubles. *)
Definition mapRange (value inMin inMax outMin outMax : float) : float :=
  ((value - inMin) * (outMax - outMin) / (inMax - inMin) + outMin)%float.

(** Lines 221-225 on doubles.  The floor of a double is an integer, and
    the clamp compares it with integers: from there on the exact numbers
    of the model are the doubles of the source. *)
Definition scaleDegreeIndexOf (scale : list Z) (y canvas_height : float)
  : number :=
  let numNotesInScaleDisplay := (of_Z (Z.of_nat (length scale)) * 2)%float in
  let scaleDegreeIndex :=
    Math_floor (value (mapRange y canvas_height 0 0
                         (numNotesInScaleDisplay - 1)%float)) in
  Math_max (int 0) (Math_min (value (numNotesInScaleDisplay - 1)%float)
                      scaleDegreeIndex).

End B64.

(** Lines 227-230 of the click handler: the MIDI note of a scale degree
    index.  The index is an integer between 0 and 13 (or [NaN]); on such
    values the division, the remainder and the sums of these lines are
    exact in double precision. *)
Definition noteOfScaleDegreeIndex (spec : ScaleSpec) (scaleDegreeIndex : number)
  : number :=
  let octaveOffset := octaveOffset spec in
  let scale := scale spec in
  let scale_length := int (Z.of_nat (length scale)) in
  let octaveWithinCanvas := Math_floor (scaleDegreeIndex / scale_length)%num in
  let noteInScaleInterval := get scale (scaleDegreeIndex %% scale_length)%num in
  (int baseMidiRootNote + int octaveOffset + (octaveWithinCanvas * int 12)
   + ToNumber noteInScaleInterval)%num.

(** Lines 218-230 with the height mapping in double precision. *)
Definition currentMidiNoteOf_b64 (color : string) (y canvas_height : float)
  : number :=
  let spec := getColorOctaveAndScale color in
  noteOfScaleDegreeIndex spec (B64.scaleDegreeIndexOf (scale spec) y canvas_height).

(** ** The stroke store *)

Module Point.
(** A stored dot [{x, y, color, size}]; coordinates and sizes are finite. *)
Record t : Type := make { x : Q; y : Q; color : string; size : Q }.
End Point.

Inductive AudioContextState : Type := suspended | running.

(** The mutable variables of the page's closure. *)
Record State : Type := {
  isDrawing : bool;
  currentBrushColor : string;
  currentBrushSize : Q;
  drawnPoints : list Point.t;
  audioCtx : option AudioContextState
}.

Definition with_drawnPoints (pts : list Point.t) (st : State) : State :=
  {| isDrawing := isDrawing st;
     currentBrushColor := currentBrushColor st;
     currentBrushSize := currentBrushSize st;
     drawnPoints := pts;
     audioCtx := audioCtx st |}.

Definition with_isDrawing (b : bool) (st : State) : State :=
  {| isDrawing := b;
     currentBrushColor := currentBrushColor st;
     currentBrushSize := currentBrushSize st;
     drawnPoints := drawnPoints st;
     audioCtx := audioCtx st |}.

Definition with_audioCtx (a : option AudioContextState) (st : State) : State :=
  {| isDrawing := isDrawing st;
     currentBrushColor := currentBrushColor st;
     currentBrushSize := currentBrushSize st;
     drawnPoints := drawnPoints st;
     audioCtx := a |}.

(** [addPoint(x, y)]: the dot is painted (not modelled) and stored. *)
Definition addPoint (px py : Q) (st : State) : State :=
  with_drawnPoints
    (drawnPoints st ++
       [Point.make px py (currentBrushColor st) (currentBrushSize st)])
    st.

Definition startDrawing (px py : Q) (st : State) : State :=
  addPoint px py (with_isDrawing true st).

Definition draw (px py : Q) (st : State) : State :=
  if isDrawing st then addPoint px py st else st.

Definition stopDrawing (st : State) : State := with_isDrawing false st.

Definition clearCanvas (st : State) : State := with_drawnPoints [] st.

(** [getAudioContext()]: the context is created on first use (a fresh one
    may start suspended or running, as the platform decides) and resumed
    when suspended. *)
Definition getAudioContext (fresh : AudioContextState) (st : State) : State :=
  let st1 :=
    match audioCtx st with
    | None => with_audioCtx (Some fresh) st
    | Some _ => st
    end in
  match audioCtx st1 with
  | Some suspended => with_audioCtx (Some running) st1
  | _ => st1
  end.

(** ** Sorting

    [Array.prototype.sort(compareFn)] is stable: for a consistent
    comparator its result is the sorted rearrangement in which elements
    that compare equal keep their order.  A stable insertion sort computes
    it: an element is moved behind another one only when the comparator is
    positive on the pair. *)

Section Sort.
Context {A : Type} (compareFn : A -> A -> number).

Fixpoint sort_insert (a : A) (l : list A) : list A :=
  match l with
  | [] => [a]
  | b :: l' =>
      if (int 0 <? compareFn a b)%num then b :: sort_insert a l'
      else a :: l
  end.

Definition Array_sort (l : list A) : list A := foldr sort_insert [] l.
End Sort.

(** The comparators of the source, [(a, b) => a.k - b.k]. *)
Definition byKey {A : Type} (key : A -> Q) (a b : A) : number :=
  (Fin (key a) - Fin (key b))%num.

(** ** The tone synthesiser *)

Inductive ParamEvent : Type :=
| setValueAtTime (v t : number)
| linearRampToValueAtTime (v t : number)
| exponentialRampToValueAtTime (v t : number).

(** One overtone: an oscillator and its gain node, with the automation
    scheduled on them and the times of [osc.start] and [osc.stop]. *)
Record Overtone : Type := {
  osc_type : string;
  osc_frequency : list ParamEvent;
  overtoneGainNode_gain : list ParamEvent;
  osc_start : number;
  osc_stop : number
}.

(** What one call of [createMusicBoxTone] hands to the audio backend. *)
Record Tone : Type := {
  masterGain_gain : list ParamEvent;
  overtones : list Overtone
}.

Definition overtoneRatios : list Q := [1; 2.01; 3.03; 4.05; 5.8]%Q.
Definition overtoneGains : list Q := [1; 0.7; 0.5; 0.3; 0.15]%Q.

(** [v || d] on an array element: [d] replaces [undefined] and [0]. *)
Definition or_else (v : option Q) (d : Q) : Q :=
  match v with
  | Some g => if Qeq_bool g 0 then d else g
  | None => d
  end.

Section Synthesiser.
(** [Math.pow] is kept abstract: [2^(n/12)] is not rational. *)
Variable Math_pow : number -> number -> number.

Definition midiToFreq (midi : number) : number :=
  (Math_pow (int 2) ((midi - int 69) / int 12) * int 440)%num.

(** [createMusicBoxTone(time, midiNote, velocity = 0.3, duration = 1.0)];
    an omitted argument is [None]. *)
Definition createMusicBoxTone
    (time midiNote : number) (velocity_arg duration_arg : value) : Tone :=
  let velocity := default (Fin 0.3) velocity_arg in
  let duration := default (Fin 1.0) duration_arg in
  let fundamentalFreq := midiToFreq midiNote in
  {| masterGain_gain :=
       [ setValueAtTime (int 0) time;
         linearRampToValueAtTime velocity (time + Fin 0.005)%num;
         exponentialRampToValueAtTime (velocity * Fin 0.1)%num
           (time + duration * Fin 0.3)%num;
         exponentialRampToValueAtTime (Fin 0.0001) (time + duration)%num ];
     overtones :=
       imap (fun index ratio =>
               {| osc_type := "sine";
                  osc_frequency :=
                    [ setValueAtTime (fundamentalFreq * Fin ratio)%num time ];
                  overtoneGainNode_gain :=
                    [ setValueAtTime
                        (Fin (or_else (overtoneGains !! index) 0.1)) time ];
                  osc_start := time;
                  osc_stop := (time + duration + Fin 0.1)%num |})
         overtoneRatios |}.
End Synthesiser.

(** ** The playback scheduler *)

(** What the click handler reads from the page when it runs. *)
Record Env : Type := {
  canvas_width : Q;
  canvas_height : Q;
  minBrushSize : number;       (* parseFloat(brushSizeInput.min) *)
  maxBrushSize : number;       (* parseFloat(brushSizeInput.max) *)
  currentTime : number;        (* localAudioCtx.currentTime *)
  fresh_context : AudioContextState
}.

Definition totalPlaybackDuration : Z := 8.
Definition numTimeSteps : Z := Qfloor (inject_Z totalPlaybackDuration * 4).
Definition timeStepDuration : number :=
  (int totalPlaybackDuration / int numTimeSteps)%num.

Definition timeSlotIndexOf (width : Q) (point : Point.t) : number :=
  Math_floor (mapRange (Fin (Point.x point)) (int 0) (Fin width) (int 0)
                (int numTimeSteps - int 1)%num).

(** Line 202 in double precision, for a sample at [x]. *)
Definition timeSlotIndexOf_b64 (width x : float) : number :=
  Math_floor
    (B64.value (B64.mapRange x 0 width 0 (B64.of_Z numTimeSteps - 1)%float)).

(** The array index a number in range denotes. *)
Definition to_index (n : number) : nat :=
  match n with
  | Fin q => Z.to_nat (Qfloor q)
  | _ => 0%nat
  end.

(** The body of [sortedPoints.forEach(point => ...)]. *)
Definition pushPoint (width : Q) (notesInTimeSlots : list (list Point.t))
    (point : Point.t) : list (list Point.t) :=
  let timeSlotIndex := timeSlotIndexOf width point in
  if (timeSlotIndex >=? int 0)%num && (timeSlotIndex <? int numTimeSteps)%num
  then alter (fun pointsInSlot => pointsInSlot ++ [point])
         (to_index timeSlotIndex) notesInTimeSlots
  else notesInTimeSlots.

Definition sortedPointsOf (pts : list Point.t) : list Point.t :=
  Array_sort (byKey Point.x) pts.

Definition notesInTimeSlotsOf (width : Q) (pts : list Point.t)
  : list (list Point.t) :=
  foldl (pushPoint width) (replicate (Z.to_nat numTimeSteps) [])
    (sortedPointsOf pts).

(** One call of [createMusicBoxTone] made by the handler, tagged with the
    [slotIndex] of the [forEach] iteration that made it. *)
Record ToneEvent : Type := {
  slotIndex : nat;
  scheduledTime : number;
  currentMidiNote : number;
  velocity : number;
  noteDuration : number
}.

(** Lines 216-238: the tone of a representative point. *)
Definition toneOf (env : Env) (slotIndex : nat)
    (representativePoint : Point.t) : ToneEvent :=
  {| slotIndex := slotIndex;
     scheduledTime :=
       (currentTime env + int (Z.of_nat slotIndex) * timeStepDuration)%num;
     currentMidiNote :=
       currentMidiNoteOf (Point.color representativePoint)
         (Fin (Point.y representativePoint)) (Fin (canvas_height env));
     velocity :=
       mapRange (Fin (Point.size representativePoint))
         (minBrushSize env) (maxBrushSize env) (Fin 0.2) (Fin 0.5);
     noteDuration :=
       mapRange (Fin (Point.size representativePoint))
         (minBrushSize env) (maxBrushSize env) (Fin 0.8) (Fin 1.5) |}.

(** The body of [notesInTimeSlots.forEach((pointsInSlot, slotIndex) => ...)]:
    nothing for an empty slot, otherwise the slot is sorted by [y] and its
    first point is played. *)
Definition playSlot (env : Env) (slotIndex : nat)
    (pointsInSlot : list Point.t) : list ToneEvent :=
  if (length pointsInSlot =? 0)%nat then []
  else
    match Array_sort (byKey Point.y) pointsInSlot !! 0%nat with
    | Some representativePoint => [toneOf env slotIndex representativePoint]
    | None => []
    end.

Definition toneEventsOf (env : Env) (pts : list Point.t) : list ToneEvent :=
  mjoin (imap (playSlot env) (notesInTimeSlotsOf (canvas_width env) pts)).

(** The click handler of [playSoundButton]: the console output, the calls
    of [createMusicBoxTone] in the order they are made, and the state the
    page is left in.  The store is read through a copy, so sorting does
    not touch it; the calls of [getAudioContext] that follow the first one
    find the context created and resumed and change nothing. *)
Record Played : Type := {
  console : list string;
  toneEvents : list ToneEvent;
  state_after : State
}.

(** [drawnPoints.length === 0], the guard of the handler. *)
Definition isEmpty (st : State) : bool := (length (drawnPoints st) =? 0)%nat.

Definition play (env : Env) (st : State) : Played :=
  if isEmpty st then
    {| console := ["Nothing to play."]; toneEvents := []; state_after := st |}
  else
    {| console := ["Playing music box sounds..."];
       toneEvents := toneEventsOf env (drawnPoints st);
       state_after := getAudioContext (fresh_context env) st |}.

(** The sound of a play: every tone event handed to the synthesiser. *)
Definition soundOf (Math_pow : number -> number -> number)
    (evs : list ToneEvent) : list Tone :=
  (fun e => createMusicBoxTone Math_pow (scheduledTime e) (currentMidiNote e)
              (Some (velocity e)) (Some (noteDuration e))) <$> evs.

(** ** The click handler over an evaluation of [mapRange]

    The handler takes two decisions on the floor of a value of [mapRange]:
    the slot of a sample (line 202) and the scale degree of a
    representative (line 224).  The definitions of this section follow
    lines 189-238 once more with the evaluation of [mapRange] as a
    parameter: with [mapRange] they are the definitions above, with
    [mapRange_b64] the function is evaluated in double precision. *)

Definition mapRange_b64 (value inMin inMax outMin outMax : number) : number :=
  B64.value (B64.mapRange (B64.of_number value) (B64.of_number inMin)
               (B64.of_number inMax) (B64.of_number outMin)
               (B64.of_number outMax)).

Section Pass.
Variable mapRangeAs : number -> number -> number -> number -> number -> number.

Definition timeSlotIndexWith (width : Q) (point : Point.t) : number :=
  Math_floor (mapRangeAs (Fin (Point.x point)) (int 0) (Fin width) (int 0)
                (int numTimeSteps - int 1)%num).

(** The slot a sample is pushed to, if any: the guard of line 203 and the
    index of line 204. *)
Definition slotWith (width : Q) (point : Point.t) : option nat :=
  let timeSlotIndex := timeSlotIndexWith width point in
  if (timeSlotIndex >=? int 0)%num && (timeSlotIndex <? int numTimeSteps)%num
  then Some (to_index timeSlotIndex) else None.

Definition pushPointWith (width : Q) (notesInTimeSlots : list (list Point.t))
    (point : Point.t) : list (list Point.t) :=
  let timeSlotIndex := timeSlotIndexWith width point in
  if (timeSlotIndex >=? int 0)%num && (timeSlotIndex <? int numTimeSteps)%num
  then alter (fun pointsInSlot => pointsInSlot ++ [point])
         (to_index timeSlotIndex) notesInTimeSlots
  else notesInTimeSlots.

Definition notesInTimeSlotsWith (width : Q) (pts : list Point.t)
  : list (list Point.t) :=
  foldl (pushPointWith width) (replicate (Z.to_nat numTimeSteps) [])
    (sortedPointsOf pts).

Definition scaleDegreeIndexWith (scale : list Z) (y canvas_height : number)
  : number :=
  let numNotesInScaleDisplay := (int (Z.of_nat (length scale)) * int 2)%num in
  let scaleDegreeIndex :=
    Math_floor (mapRangeAs y canvas_height (int 0) (int 0)
                  (numNotesInScaleDisplay - int 1)%num) in
  Math_max (int 0) (Math_min (numNotesInScaleDisplay - int 1)%num
                      scaleDegreeIndex).

Definition currentMidiNoteWith (color : string) (y canvas_height : number)
  : number :=
  let spec := getColorOctaveAndScale color in
  noteOfScaleDegreeIndex spec (scaleDegreeIndexWith (scale spec) y canvas_height).

Definition toneWith (env : Env) (slotIndex : nat)
    (representativePoint : Point.t) : ToneEvent :=
  {| slotIndex := slotIndex;
     scheduledTime :=
       (currentTime env + int (Z.of_nat slotIndex) * timeStepDuration)%num;
     currentMidiNote :=
       currentMidiNoteWith (Point.color representativePoint)
         (Fin (Point.y representativePoint)) (Fin (canvas_height env));
     velocity :=
       mapRangeAs (Fin (Point.size representativePoint))
         (minBrushSize env) (maxBrushSize env) (Fin 0.2) (Fin 0.5);
     noteDuration :=
       mapRangeAs (Fin (Point.size representativePoint))
         (minBrushSize env) (maxBrushSize env) (Fin 0.8) (Fin 1.5) |}.

Definition playSlotWith (env : Env) (slotIndex : nat)
    (pointsInSlot : list Point.t) : list ToneEvent :=
  if (length pointsInSlot =? 0)%nat then []
  else
    match Array_sort (byKey Point.y) pointsInSlot !! 0%nat with
    | Some representativePoint => [toneWith env slotIndex representativePoint]
    | None => []
    end.

Definition toneEventsWith (env : Env) (pts : list Point.t) : list ToneEvent :=
  mjoin (imap (playSlotWith env) (notesInTimeSlotsWith (canvas_width env) pts)).
End Pass.

(** ** The input handlers *)

(** The outcome of an expression that may throw. *)
Inductive result (A : Type) : Type :=
| Ok (a : A)
| TypeError.
Arguments Ok {A} a.
Arguments TypeError {A}.

(** A mouse or touch event as [getMousePos] reads it.  A mouse event has
    [clientX] and [clientY] and no [touches]; a touch event has a [touches]
    list, given here by the client coordinates of each touch, and no
    [clientX] nor [clientY]. *)
Record PointerEvent : Type := {
  clientX : value;
  clientY : value;
  touches : option (list (number * number))
}.

(** [canvas.getBoundingClientRect()]. *)
Record DOMRect : Type := { rect_left : number; rect_top : number }.

(** Whether a value counts as true in [a || b]: [undefined], [0] and [NaN]
    do not. *)
Definition truthy (v : value) : bool :=
  match v with
  | Some (Fin q) => negb (Qeq_bool q 0)
  | Some NaN => false
  | Some _ => true
  | None => false
  end.

(** [evt.touches && evt.touches[0].clientX] (or [.clientY]): [undefined]
    without a [touches] list; reading a coordinate of [touches[0]] throws
    when the list is empty. *)
Definition firstTouch (coord : number * number -> number) (evt : PointerEvent)
  : result value :=
  match touches evt with
  | None => Ok None
  | Some [] => TypeError
  | Some (t :: _) => Ok (Some (coord t))
  end.

(** [own || (evt.touches && evt.touches[0].coord)]. *)
Definition clientCoord (own : value) (coord : number * number -> number)
    (evt : PointerEvent) : result value :=
  if truthy own then Ok own else firstTouch coord evt.

(** [getMousePos(evt)]: the position relative to the canvas. *)
Definition getMousePos (rect : DOMRect) (evt : PointerEvent)
  : result (number * number) :=
  match clientCoord (clientX evt) fst evt with
  | TypeError => TypeError
  | Ok cx =>
      match clientCoord (clientY evt) snd evt with
      | TypeError => TypeError
      | Ok cy =>
          Ok ((ToNumber cx - rect_left rect)%num,
              (ToNumber cy - rect_top rect)%num)
      end
  end.

(** The click handler of a colour brush: [currentBrushColor =
    brush.dataset.color]. *)
Definition selectBrush (color : string) (st : State) : State :=
  {| isDrawing := isDrawing st;
     currentBrushColor := color;
     currentBrushSize := currentBrushSize st;
     drawnPoints := drawnPoints st;
     audioCtx := audioCtx st |}.

(** The input handler of the size slider, given the integer [parseInt]
    reads from the slider. *)
Definition setBrushSize (parsed : Z) (st : State) : State :=
  {| isDrawing := isDrawing st;
     currentBrushColor := currentBrushColor st;
     currentBrushSize := inject_Z parsed;
     drawnPoints := drawnPoints st;
     audioCtx := audioCtx st |}.

(** What the user does on the page, with the handler each action runs. *)
Inductive UIEvent : Type :=
| mousedown (px py : Q)
| mousemove (px py : Q)
| mouseup
| mouseout
| clickBrush (color : string)
| inputSize (parsed : Z)
| clickClear.

Definition handle (st : State) (ev : UIEvent) : State :=
  match ev with
  | mousedown px py => startDrawing px py st
  | mousemove px py => draw px py st
  | mouseup | mouseout => stopDrawing st
  | clickBrush color => selectBrush color st
  | inputSize parsed => setBrushSize parsed st
  | clickClear => clearCanvas st
  end.

Definition handleAll (st : State) (evs : list UIEvent) : State :=
  foldl handle st evs.

(** ** Notions the properties are stated with *)

(** A number that is neither an infinity nor [NaN]. *)
Definition is_finite (n : number) : bool :=
  match n with Fin _ => true | _ => false end.

(** The one action that removes stored points. *)
Definition is_clear (ev : UIEvent) : bool :=
  match ev with clickClear => true | _ => false end.


#[export] Instance Qeq_decision (p q : Q) : Decision (p == q) := Qeq_dec p q.

(** Order by key, and the first element of least key of a list: the
    elements before it have a strictly larger key. *)
Definition key_le {A : Type} (key : A -> Q) (a b : A) : Prop := key a <= key b.

Definition first_least {A : Type} (key : A -> Q) (rep : A) (l : list A) : Prop :=
  exists l1 l2,
    l = l1 ++ rep :: l2
    /\ Forall (fun p => key rep < key p) l1
    /\ Forall (fun p => key rep <= key p) l2.

(** The slot a sample is pushed to, if any: the guard of line 203 and
    the index of line 204. *)
Definition slotOf (width : Q) (point : Point.t) : option nat :=
  let timeSlotIndex := timeSlotIndexOf width point in
  if (timeSlotIndex >=? int 0)%num && (timeSlotIndex <? int numTimeSteps)%num
  then Some (to_index timeSlotIndex) else None.

(** The samples of a slot, in the order of the [x]-sorted array. *)
Definition slotSamples (width : Q) (pts : list Point.t) (i : nat)
  : list Point.t :=
  filter (fun p => slotOf width p = Some i) (sortedPointsOf pts).

(** The colours the [switch] has a case for; the comparison is made on the
    upper-cased string, so a colour is recognised whatever its case. *)
Definition recognizedColors : list string :=
  ["#FF0000"; "#00FF00"; "#0000FF"; "#FFFF00"; "#000000"].

Definition recognized (color : string) : Prop :=
  toUpperCase color ∈ recognizedColors.

Definition defaultScaleSpec : ScaleSpec :=
  {| octaveOffset := 0; scale := [0; 2; 4; 5; 7; 9; 11]%Z |}.

(** An exponential ramp of the event, if it is one, has a non-zero target. *)
Definition rampTargetsNonZero (ev : ParamEvent) : Prop :=
  match ev with
  | exponentialRampToValueAtTime v _ => ~ v =n= int 0
  | _ => True
  end.

(** The part of a tone event that does not depend on the clock. *)
Definition eventSignature (e : ToneEvent) : nat * number * number * number :=
  (slotIndex e, currentMidiNote e, velocity e, noteDuration e).

(** ** A page to run the handler on: a 600 x 400 canvas, brush sizes from
    2 to 20. *)

Definition example_env : Env :=
  {| canvas_width := 600; canvas_height := 400;
     minBrushSize := int 2; maxBrushSize := int 20;
     currentTime := int 0; fresh_context := running |}.

Definition example_env_later : Env :=
  {| canvas_width := 600; canvas_height := 400;
     minBrushSize := int 2; maxBrushSize := int 20;
     currentTime := Fin 12.5; fresh_context := suspended |}.

Definition example_empty_state : State :=
  {| isDrawing := false; currentBrushColor := "#FF0000";
     currentBrushSize := 5; drawnPoints := []; audioCtx := None |}.

Definition example_state : State :=
  addPoint 590 0 (addPoint 10 400 example_empty_state).

(** ** The pitch mapping as the specification words it *)

Module Spec.

(** The linear remap of [v] from the interval [[a, b]] to [[c, d]]. *)
Definition linearMap (v a b c d : Q) : Q := c + (d - c) * ((v - a) / (b - a)).

Definition clamp (lo hi z : Z) : Z := Z.max lo (Z.min hi z).

(** Step 3: the scale-degree index. *)
Definition degreeIndex (intervals : list Z) (y canvasHeight : Q) : Z :=
  let displaySpan := (2 * Z.of_nat (length intervals))%Z in
  clamp 0 (displaySpan - 1)
    (Qfloor (linearMap y canvasHeight 0 0 (inject_Z (displaySpan - 1)))).

(** Steps 4 and 5: the note of a scale degree. *)
Definition noteOfDegree (spec : ScaleSpec) (d : Z) : Z :=
  let intervals := scale spec in
  let len := Z.of_nat (length intervals) in
  let octaveWithinCanvas := (d / len)%Z in
  let intervalOffset := nth (Z.to_nat (d mod len)) intervals 0%Z in
  (60 + octaveOffset spec + 12 * octaveWithinCanvas + intervalOffset)%Z.

Definition noteNumber (spec : ScaleSpec) (y canvasHeight : Q) : Z :=
  noteOfDegree spec (degreeIndex (scale spec) y canvasHeight).

End Spec.

(** The same algorithm with the linear map of step 3 in double precision,
    evaluated in the order [mapRange] evaluates it, each operation rounded;
    the floor, the clamp and steps 4 and 5 are on integers.  An infinite
    value clamps to the nearer bound, and [NaN] has no degree. *)
Module Spec64.

Definition linearMap (v a b c d : float) : float :=
  ((v - a) * (d - c) / (b - a) + c)%float.

Definition degreeIndex (intervals : list Z) (y canvasHeight : float)
  : option Z :=
  let displaySpan := (2 * Z.of_nat (length intervals))%Z in
  match B64.value (linearMap y canvasHeight 0 0 (B64.of_Z (displaySpan - 1))) with
  | Fin m => Some (Spec.clamp 0 (displaySpan - 1) (Qfloor m))
  | PosInf => Some (Z.max 0 (displaySpan - 1))
  | NegInf => Some 0%Z
  | NaN => None
  end.

Definition noteNumber (spec : ScaleSpec) (y canvasHeight : float) : option Z :=
  Spec.noteOfDegree spec <$> degreeIndex (scale spec) y canvasHeight.

End Spec64.

(** Equality of two numbers as they are written (same numerator, same
    denominator), to compare computed values. *)
Definition number_eqb (a b : number) : bool :=
  match a, b with
  | Fin p, Fin q => (Qnum p =? Qnum q)%Z && (Qden p =? Qden q)%positive
  | PosInf, PosInf | NegInf, NegInf | NaN, NaN => true
  | _, _ => false
  end.

(** The whole pixel coordinates from [lo] to [hi]. *)
Definition pixels (lo hi : Z) : list Z := seqZ lo (hi - lo + 1).

(** * Properties *)

(** ** Arithmetic of integer-valued numbers *)

Lemma int_add a b : (int a + int b)%num = int (a + b).
Proof. unfold int, add, Qplus, inject_Z; cbn. do 2 f_equal. lia. Qed.

Lemma int_sub a b : (int a - int b)%num = int (a - b).
Proof. unfold int, sub, add, neg, Qplus, Qopp, inject_Z; cbn. do 2 f_equal. lia. Qed.

Lemma int_mul a b : (int a * int b)%num = int (a * b).
Proof. reflexivity. Qed.

Lemma Qle_bool_inject a b : Qle_bool (inject_Z a) (inject_Z b) = (a <=? b)%Z.
Proof. unfold Qle_bool, inject_Z; cbn. by rewrite !Z.mul_1_r. Qed.

Lemma Qeq_bool_inject a b : Qeq_bool (inject_Z a) (inject_Z b) = (a =? b)%Z.
Proof. unfold Qeq_bool, inject_Z; cbn. by rewrite !Z.mul_1_r. Qed.

Lemma ltb_int a b : (int a <? int b)%num = (a <? b)%Z.
Proof.
  unfold ltb, int. rewrite Qle_bool_inject.
  destruct (Z.leb_spec b a), (Z.ltb_spec a b); auto; lia.
Qed.

Lemma geb_int a b : (int a >=? int b)%num = (b <=? a)%Z.
Proof.
  unfold geb. change (negb (int a <? int b)%num = (b <=? a)%Z).
  rewrite ltb_int. destruct (Z.leb_spec b a), (Z.ltb_spec a b); auto; lia.
Qed.

Lemma Math_min_int a b : Math_min (int a) (int b) = int (Z.min a b).
Proof.
  unfold Math_min. change (Fin (inject_Z ?z)) with (int z). rewrite ltb_int.
  destruct (Z.ltb_spec b a); f_equal; lia.
Qed.

Lemma Math_max_int a b : Math_max (int a) (int b) = int (Z.max a b).
Proof.
  unfold Math_max. change (Fin (inject_Z ?z)) with (int z). rewrite ltb_int.
  destruct (Z.ltb_spec a b); f_equal; lia.
Qed.

Lemma floor_div_int a b : b ≠ 0%Z -> Math_floor (int a / int b)%num = int (a / b).
Proof.
  intros Hb. unfold div, int. change 0%Q with (inject_Z 0).
  rewrite Qeq_bool_inject. destruct (Z.eqb_spec b 0); [done|].
  cbn [Math_floor]. by rewrite <- Zdiv_Qdiv.
Qed.

Lemma Qtrunc_nonneg q : (0 <= q)%Q -> Qtrunc q = Qfloor q.
Proof.
  intros H. unfold Qtrunc. apply Qle_bool_iff in H. by rewrite H.
Qed.

Lemma rem_int a b :
  (0 <= a)%Z -> (0 < b)%Z -> (int a %% int b)%num = int (a mod b).
Proof.
  intros Ha Hb. unfold rem, int. change 0%Q with (inject_Z 0).
  rewrite Qeq_bool_inject. destruct (Z.eqb_spec b 0); [lia|].
  rewrite Qtrunc_nonneg, <- Zdiv_Qdiv.
  - unfold Qminus, Qplus, Qmult, Qopp, inject_Z; cbn. do 2 f_equal.
    rewrite Z.mod_eq by lia. lia.
  - apply Qle_shift_div_l.
    + change 0%Q with (inject_Z 0). rewrite <- Zlt_Qlt. lia.
    + rewrite Qmult_0_l. change 0%Q with (inject_Z 0). rewrite <- Zle_Qle. lia.
Qed.

Lemma get_int (arr : list Z) k :
  (0 <= k)%Z -> get arr (int k) = int <$> arr !! Z.to_nat k.
Proof.
  intros Hk. unfold get, int. rewrite Qfloor_Z, Qeq_bool_inject, Z.eqb_refl.
  change 0%Q with (inject_Z 0). rewrite Qle_bool_inject.
  destruct (Z.leb_spec 0 k); [done | lia].
Qed.

(** ** [mapRange] on finite arguments *)

Lemma mapRange_fin (v a b c d : Q) :
  ~ b == a ->
  mapRange (Fin v) (Fin a) (Fin b) (Fin c) (Fin d)
  = Fin ((v - a) * (d - c) / (b - a) + c).
Proof.
  intros Hab. unfold mapRange, sub, mul, div, add, neg.
  destruct (Qeq_bool (b + - a) 0) eqn:E; [|reflexivity].
  apply Qeq_bool_iff in E. exfalso. apply Hab. lra.
Qed.

Lemma mapRange_eq_linearMap (v a b c d : Q) :
  ~ b == a ->
  (v - a) * (d - c) / (b - a) + c == Spec.linearMap v a b c d.
Proof. intros Hab. unfold Spec.linearMap. field. lra. Qed.

(** ** C1: the note played is the note of the specification *)

Lemma scaleDegreeIndexOf_spec (intervals : list Z) (y h : Q) :
  ~ h == 0 ->
  scaleDegreeIndexOf intervals (Fin y) (Fin h)
  = int (Spec.degreeIndex intervals y h).
Proof.
  intros Hh. unfold scaleDegreeIndexOf, Spec.degreeIndex, Spec.clamp.
  cbv zeta. rewrite int_mul, int_sub. unfold int at 3 4 5.
  rewrite mapRange_fin by (intros E; apply Hh; rewrite <- E; reflexivity).
  cbn [Math_floor]. rewrite Math_min_int, Math_max_int.
  do 3 f_equal; [lia|].
  apply Qfloor_comp. rewrite mapRange_eq_linearMap.
  - replace (2 * Z.of_nat (length intervals) - 1)%Z
      with (Z.of_nat (length intervals) * 2 - 1)%Z by lia. reflexivity.
  - intros E; apply Hh; rewrite <- E; reflexivity.
Qed.

Lemma degreeIndex_range (intervals : list Z) (y h : Q) :
  intervals ≠ [] ->
  (0 <= Spec.degreeIndex intervals y h
   <= 2 * Z.of_nat (length intervals) - 1)%Z.
Proof.
  intros Hne. unfold Spec.degreeIndex, Spec.clamp.
  destruct intervals; [done|]. cbn [length]. lia.
Qed.

Lemma midiNoteIn_spec (spec : ScaleSpec) (y h : Q) :
  scale spec ≠ [] -> ~ h == 0 ->
  midiNoteIn spec (Fin y) (Fin h) = int (Spec.noteNumber spec y h).
Proof.
  intros Hne Hh. unfold midiNoteIn, Spec.noteNumber, Spec.noteOfDegree.
  rewrite scaleDegreeIndexOf_spec by done.
  pose proof (degreeIndex_range (scale spec) y h Hne) as Hd.
  set (d := Spec.degreeIndex (scale spec) y h) in *.
  assert (0 < Z.of_nat (length (scale spec)))%Z as Hlen
    by (destruct (scale spec); [done | cbn [length]; lia]).
  set (len := Z.of_nat (length (scale spec))) in *.
  pose proof (Z.mod_pos_bound d len Hlen) as Hmod.
  rewrite floor_div_int, rem_int, get_int by lia.
  destruct (lookup_lt_is_Some_2 (scale spec) (Z.to_nat (d mod len))) as [iv Hiv].
  { apply Nat2Z.inj_lt. rewrite Z2Nat.id; apply Hmod. }
  rewrite Hiv. change (ToNumber (int <$> Some iv)) with (int iv).
  rewrite (nth_lookup_Some _ _ 0%Z _ Hiv).
  unfold baseMidiRootNote. rewrite int_mul, !int_add. f_equal. ring.
Qed.

Lemma getColorOctaveAndScale_scale color :
  scale (getColorOctaveAndScale color) = DIATONIC_MAJOR_INTERVALS.
Proof. reflexivity. Qed.

Lemma currentMidiNoteOf_spec (color : string) (y h : Q) :
  ~ h == 0 ->
  currentMidiNoteOf color (Fin y) (Fin h)
  = int (Spec.noteNumber (getColorOctaveAndScale color) y h).
Proof.
  intros Hh. unfold currentMidiNoteOf. apply midiNoteIn_spec; [|done].
  by rewrite getColorOctaveAndScale_scale.
Qed.

(** *** The height mapping in double precision *)

Lemma int_inj a b : int a = int b -> a = b.
Proof. unfold int, inject_Z. by intros [= ->]. Qed.

Lemma getColorOctaveAndScale_eta color :
  getColorOctaveAndScale color
  = {| octaveOffset := octaveOffset (getColorOctaveAndScale color);
       scale := DIATONIC_MAJOR_INTERVALS |}.
Proof. reflexivity. Qed.

Lemma number_eqb_eq (a b : number) : number_eqb a b = true -> a = b.
Proof.
  destruct a as [[pn pd]| | |], b as [[qn qd]| | |]; cbn; try done.
  intros H. apply andb_prop in H as [Hn Hd].
  apply Z.eqb_eq in Hn. apply Pos.eqb_eq in Hd. by subst.
Qed.

Lemma forallb_number_eqb {A : Type} (f g : A -> number) (l : list A) :
  forallb (fun a => number_eqb (f a) (g a)) l = true ->
  Forall (fun a => f a = g a) l.
Proof.
  intros H. apply Forall_forall. intros a Ha.
  apply number_eqb_eq. rewrite forallb_forall in H.
  apply H. by apply list_elem_of_In.
Qed.

Lemma noteOfScaleDegreeIndex_int (spec : ScaleSpec) (d : Z) :
  scale spec ≠ [] -> (0 <= d)%Z ->
  noteOfScaleDegreeIndex spec (int d) = int (Spec.noteOfDegree spec d).
Proof.
  intros Hne Hd0. unfold noteOfScaleDegreeIndex, Spec.noteOfDegree.
  assert (0 < Z.of_nat (length (scale spec)))%Z as Hlen
    by (destruct (scale spec); [done | cbn [length]; lia]).
  set (len := Z.of_nat (length (scale spec))) in *.
  pose proof (Z.mod_pos_bound d len Hlen) as Hmod.
  rewrite floor_div_int, rem_int, get_int by lia.
  destruct (lookup_lt_is_Some_2 (scale spec) (Z.to_nat (d mod len))) as [iv Hiv].
  { apply Nat2Z.inj_lt. rewrite Z2Nat.id; apply Hmod. }
  rewrite Hiv. change (ToNumber (int <$> Some iv)) with (int iv).
  rewrite (nth_lookup_Some _ _ 0%Z _ Hiv).
  unfold baseMidiRootNote. rewrite int_mul, !int_add. f_equal. ring.
Qed.

Lemma noteOfScaleDegreeIndex_NaN (spec : ScaleSpec) :
  noteOfScaleDegreeIndex spec NaN = NaN.
Proof. reflexivity. Qed.

(** The exact model and the double-precision one run the same lines
    227-230 on the degree index. *)
Lemma midiNoteIn_noteOfScaleDegreeIndex (spec : ScaleSpec) (y h : number) :
  midiNoteIn spec y h
  = noteOfScaleDegreeIndex spec (scaleDegreeIndexOf (scale spec) y h).
Proof. reflexivity. Qed.

Lemma b64_diatonic_span :
  (B64.of_Z (Z.of_nat (length DIATONIC_MAJOR_INTERVALS)) * 2 - 1)%float
  = 13%float
  /\ B64.of_Z (2 * Z.of_nat (length DIATONIC_MAJOR_INTERVALS) - 1) = 13%float
  /\ B64.value 13 = int 13.
Proof. repeat split; vm_compute; reflexivity. Qed.

Lemma b64_scaleDegreeIndexOf_spec (y h : float) :
  B64.scaleDegreeIndexOf DIATONIC_MAJOR_INTERVALS y h
  = from_option int NaN (Spec64.degreeIndex DIATONIC_MAJOR_INTERVALS y h).
Proof.
  destruct b64_diatonic_span as (E1 & E2 & E3).
  unfold B64.scaleDegreeIndexOf, Spec64.degreeIndex. cbv zeta.
  rewrite E1, E2, E3. clear E1 E2 E3.
  unfold Spec64.linearMap, B64.mapRange, Spec.clamp.
  change (2 * Z.of_nat (length DIATONIC_MAJOR_INTERVALS) - 1)%Z with 13%Z.
  destruct (B64.value _) as [m| | |]; cbn [Math_floor from_option].
  - by rewrite Math_min_int, Math_max_int.
  - reflexivity.
  - reflexivity.
  - reflexivity.
Qed.

Lemma b64_degree_on_pixel_rows :
  Forall (fun y =>
            B64.scaleDegreeIndexOf DIATONIC_MAJOR_INTERVALS (B64.of_Z y) 400
            = int (Spec.degreeIndex DIATONIC_MAJOR_INTERVALS (inject_Z y) 400))
    (pixels 0 400).
Proof. apply forallb_number_eqb. vm_compute. reflexivity. Qed.

(** With the linear map taken in exact arithmetic the note of the
    specification is not always the note played: on a canvas of height 400
    a red sample at [y = 2^-45] is played as note 83, because [y - 400]
    rounds to [-400] and the quotient is 13, where the exact map gives
    degree 12 and note 81. *)
Lemma C1_exact_map_counterexample :
  B64.value 0x1p-45 = Fin (1 # 35184372088832)
  /\ B64.value 400 = Fin 400
  /\ currentMidiNoteOf_b64 "#FF0000" 0x1p-45 400 = int 83
  /\ Spec.noteNumber (getColorOctaveAndScale "#FF0000") (1 # 35184372088832) 400
     = 81%Z
  /\ currentMidiNoteOf_b64 "#FF0000" 0x1p-45 400
     <> int (Spec.noteNumber (getColorOctaveAndScale "#FF0000")
               (1 # 35184372088832) 400).
Proof.
  assert (currentMidiNoteOf_b64 "#FF0000" 0x1p-45 400 = int 83) as E1
    by (vm_compute; reflexivity).
  assert (Spec.noteNumber (getColorOctaveAndScale "#FF0000")
            (1 # 35184372088832) 400 = 81%Z) as E2
    by (vm_compute; reflexivity).
  repeat split; try (vm_compute; reflexivity); try assumption.
  rewrite E1, E2. intros E. by apply int_inj in E.
Qed.

(** C1 (amended).  For every colour and for every sample height and canvas
    height, as doubles, the MIDI note the click handler computes is the
    note of the specification's algorithm run on the colour's scale with
    the linear map of step 3 evaluated in double precision, in the order
    [mapRange] evaluates it: the degree index is the floor of that value
    clamped to [[0, displaySpan - 1]] and the note is [60 + octaveOffset +
    12 * floor(degree / len) + intervals[degree mod len]]; the note is
    [NaN] when the map is.  With the map in exact arithmetic this is still
    the note on the page's canvas, of height 400, for every whole pixel row
    from 0 to 400. *)
Theorem C1_note_matches_rounded_spec (color : string) :
  (forall y canvasHeight : float,
     currentMidiNoteOf_b64 color y canvasHeight
     = from_option int NaN
         (Spec64.noteNumber (getColorOctaveAndScale color) y canvasHeight))
  /\ Forall (fun y : Z =>
               currentMidiNoteOf_b64 color (B64.of_Z y) 400
               = int (Spec.noteNumber (getColorOctaveAndScale color)
                        (inject_Z y) 400))
       (pixels 0 400).
Proof.
  unfold currentMidiNoteOf_b64, Spec64.noteNumber, Spec.noteNumber.
  rewrite getColorOctaveAndScale_eta. cbn [scale].
  set (spec := {| octaveOffset := octaveOffset (getColorOctaveAndScale color);
                  scale := DIATONIC_MAJOR_INTERVALS |}).
  split.
  - intros y h. rewrite b64_scaleDegreeIndexOf_spec.
    destruct (Spec64.degreeIndex DIATONIC_MAJOR_INTERVALS y h) as [d|] eqn:Ed;
      cbn [fmap option_fmap option_map from_option]; [|reflexivity].
    apply noteOfScaleDegreeIndex_int; [done|].
    unfold Spec64.degreeIndex, Spec.clamp in Ed.
    destruct (B64.value _); inversion Ed; lia.
  - eapply Forall_impl; [exact b64_degree_on_pixel_rows|].
    intros y Ey. cbv beta in Ey. rewrite Ey.
    apply noteOfScaleDegreeIndex_int; [done|].
    pose proof (degreeIndex_range DIATONIC_MAJOR_INTERVALS (inject_Z y) 400
                  ltac:(done)). lia.
Qed.

(** ** C4, C5: monotonicity and clamping of the pitch mapping *)

Lemma leb_int a b : (int a <=? int b)%num = (a <=? b)%Z.
Proof. unfold leb. apply geb_int. Qed.

Lemma linearMap_height (v h D : Q) :
  ~ h == 0 -> Spec.linearMap v h 0 0 D == D - D / h * v.
Proof. intros Hh. unfold Spec.linearMap. field. lra. Qed.

Lemma linearMap_antitone (y1 y2 h D : Q) :
  0 < h -> 0 <= D -> y1 <= y2 ->
  Spec.linearMap y2 h 0 0 D <= Spec.linearMap y1 h 0 0 D.
Proof.
  intros Hh HD Hy. rewrite !linearMap_height by lra.
  assert (0 <= D / h) as Hc by (apply Qle_shift_div_l; lra).
  assert (D / h * y1 <= D / h * y2)
    by (rewrite !(Qmult_comm (D / h)); by apply Qmult_le_compat_r).
  lra.
Qed.

Lemma degreeIndex_antitone (intervals : list Z) (y1 y2 h : Q) :
  intervals ≠ [] -> 0 < h -> y1 <= y2 ->
  (Spec.degreeIndex intervals y2 h <= Spec.degreeIndex intervals y1 h)%Z.
Proof.
  intros Hne Hh Hy. unfold Spec.degreeIndex, Spec.clamp.
  assert (Qfloor (Spec.linearMap y2 h 0 0
                    (inject_Z (2 * Z.of_nat (length intervals) - 1)))
          <= Qfloor (Spec.linearMap y1 h 0 0
                       (inject_Z (2 * Z.of_nat (length intervals) - 1))))%Z.
  { apply Qfloor_resp_le, linearMap_antitone; [done| |done].
    change 0 with (inject_Z 0). rewrite <- Zle_Qle.
    destruct intervals; [done | cbn [length]; lia]. }
  lia.
Qed.

(** Below the canvas ([y] beyond the height) the degree is the lowest one;
    above it ([y] negative) the degree is the highest one. *)
Lemma degreeIndex_below (intervals : list Z) (y h : Q) :
  0 < h -> h <= y -> Spec.degreeIndex intervals y h = 0%Z.
Proof.
  intros Hh Hy. unfold Spec.degreeIndex, Spec.clamp.
  set (D := (2 * Z.of_nat (length intervals) - 1)%Z).
  destruct (Z.le_gt_cases 0 D) as [HD|HD]; [|lia].
  assert (Spec.linearMap y h 0 0 (inject_Z D) <= inject_Z 0) as Hle.
  { rewrite linearMap_height by lra.
    assert (0 <= inject_Z D) by (change 0 with (inject_Z 0); by rewrite <- Zle_Qle).
    assert (inject_Z D / h * h <= inject_Z D / h * y).
    { rewrite !(Qmult_comm (inject_Z D / h)). apply Qmult_le_compat_r; [done|].
      apply Qle_shift_div_l; lra. }
    assert (inject_Z D / h * h == inject_Z D) by (field; lra).
    change (inject_Z 0) with 0. lra. }
  apply Qfloor_resp_le in Hle. rewrite Qfloor_Z in Hle. lia.
Qed.

Lemma degreeIndex_above (intervals : list Z) (y h : Q) :
  0 < h -> y <= 0 ->
  Spec.degreeIndex intervals y h
  = Z.max 0 (2 * Z.of_nat (length intervals) - 1).
Proof.
  intros Hh Hy. unfold Spec.degreeIndex, Spec.clamp.
  set (D := (2 * Z.of_nat (length intervals) - 1)%Z).
  destruct (Z.le_gt_cases 0 D) as [HD|HD]; [|lia].
  assert (inject_Z D <= Spec.linearMap y h 0 0 (inject_Z D)) as Hle.
  { rewrite linearMap_height by lra.
    assert (0 <= inject_Z D) by (change 0 with (inject_Z 0); by rewrite <- Zle_Qle).
    assert (inject_Z D / h * y <= inject_Z D / h * 0).
    { rewrite !(Qmult_comm (inject_Z D / h)). apply Qmult_le_compat_r; [done|].
      apply Qle_shift_div_l; lra. }
    lra. }
  apply Qfloor_resp_le in Hle. rewrite Qfloor_Z in Hle. lia.
Qed.

(** On the two octaves the canvas displays, the diatonic-major note of a
    scale degree grows with the degree. *)
Lemma diatonic_noteOfDegree_mono (off d1 d2 : Z) :
  (0 <= d1 <= d2)%Z -> (d2 <= 13)%Z ->
  (Spec.noteOfDegree {| octaveOffset := off; scale := DIATONIC_MAJOR_INTERVALS |} d1
   <= Spec.noteOfDegree {| octaveOffset := off; scale := DIATONIC_MAJOR_INTERVALS |} d2)%Z.
Proof.
  intros H1 H2. unfold Spec.noteOfDegree. cbn [scale octaveOffset].
  change (Z.of_nat (length DIATONIC_MAJOR_INTERVALS)) with 7%Z.
  assert (forall d, (0 <= d <= 13)%Z ->
            (12 * (d / 7) + nth (Z.to_nat (d mod 7)) DIATONIC_MAJOR_INTERVALS 0
             = if d <? 7 then nth (Z.to_nat d) DIATONIC_MAJOR_INTERVALS 0
               else 12 + nth (Z.to_nat (d - 7)) DIATONIC_MAJOR_INTERVALS 0)%Z) as Hd.
  { intros d Hd. destruct (Z.ltb_spec d 7).
    - rewrite Z.div_small, Z.mod_small by lia. lia.
    - rewrite <- (Z.div_unique d 7 1 (d - 7)) by lia.
      rewrite <- (Z.mod_unique d 7 1 (d - 7)) by lia. lia. }
  assert (forall k, (k < 7)%nat ->
            (0 <= nth k DIATONIC_MAJOR_INTERVALS 0 <= 11)%Z) as Hrange.
  { intros k Hk. do 7 (destruct k as [|k]; [cbn; lia|]). lia. }
  assert (forall j k, (j <= k < 7)%nat ->
            (nth j DIATONIC_MAJOR_INTERVALS 0 <= nth k DIATONIC_MAJOR_INTERVALS 0)%Z)
    as Hsorted.
  { intros j k Hjk.
    do 7 (destruct j as [|j]; [do 7 (destruct k as [|k]; [cbn; lia|]); lia|]). lia. }
  pose proof (Hd d1 ltac:(lia)) as E1. pose proof (Hd d2 ltac:(lia)) as E2.
  destruct (Z.ltb_spec d1 7), (Z.ltb_spec d2 7).
  - pose proof (Hsorted (Z.to_nat d1) (Z.to_nat d2) ltac:(lia)). lia.
  - pose proof (Hrange (Z.to_nat d1) ltac:(lia)).
    pose proof (Hrange (Z.to_nat (d2 - 7)) ltac:(lia)). lia.
  - lia.
  - pose proof (Hsorted (Z.to_nat (d1 - 7)) (Z.to_nat (d2 - 7)) ltac:(lia)). lia.
Qed.

Lemma noteNumber_antitone (color : string) (y1 y2 h : Q) :
  0 < h -> y1 <= y2 ->
  (Spec.noteNumber (getColorOctaveAndScale color) y2 h
   <= Spec.noteNumber (getColorOctaveAndScale color) y1 h)%Z.
Proof.
  intros Hh Hy. unfold Spec.noteNumber.
  rewrite getColorOctaveAndScale_eta. cbn [scale].
  pose proof (degreeIndex_range DIATONIC_MAJOR_INTERVALS y1 h ltac:(done)) as R1.
  pose proof (degreeIndex_range DIATONIC_MAJOR_INTERVALS y2 h ltac:(done)) as R2.
  pose proof (degreeIndex_antitone DIATONIC_MAJOR_INTERVALS y1 y2 h
                ltac:(done) Hh Hy) as Hd.
  change (Z.of_nat (length DIATONIC_MAJOR_INTERVALS)) with 7%Z in R1, R2.
  apply diatonic_noteOfDegree_mono; lia.
Qed.

(** C4.  For a fixed colour and a positive canvas height the note is
    non-increasing in [y]: when [y1 <= y2], the note computed for [y2] is
    at most the note computed for [y1]. *)
Theorem C4_pitch_monotone (color : string) (canvasHeight y1 y2 : Q) :
  0 < canvasHeight -> y1 <= y2 ->
  (currentMidiNoteOf color (Fin y2) (Fin canvasHeight)
   <=? currentMidiNoteOf color (Fin y1) (Fin canvasHeight))%num = true.
Proof.
  intros Hh Hy. rewrite !currentMidiNoteOf_spec by lra.
  rewrite leb_int. apply Z.leb_le. by apply noteNumber_antitone.
Qed.

Lemma C4_pitch_monotone_witness :
  (currentMidiNoteOf "#0000ff" (Fin 350) (Fin 400)
   <=? currentMidiNoteOf "#0000ff" (Fin 50) (Fin 400))%num = true.
Proof. apply (C4_pitch_monotone "#0000ff" 400 50 350); by vm_compute. Defined.

(** C5.  For a fixed colour and a positive canvas height, a negative [y]
    gives the note of [y = 0], a [y] beyond the canvas height gives the
    note of [y = canvasHeight], and in every case the result is an integer
    note: the height is clamped, never rejected. *)
Theorem C5_pitch_clamped (color : string) (canvasHeight y : Q) :
  0 < canvasHeight ->
  (y < 0 ->
   currentMidiNoteOf color (Fin y) (Fin canvasHeight)
   = currentMidiNoteOf color (Fin 0) (Fin canvasHeight))
  /\ (canvasHeight < y ->
      currentMidiNoteOf color (Fin y) (Fin canvasHeight)
      = currentMidiNoteOf color (Fin canvasHeight) (Fin canvasHeight))
  /\ exists n : Z, currentMidiNoteOf color (Fin y) (Fin canvasHeight) = int n.
Proof.
  intros Hh. rewrite !currentMidiNoteOf_spec by lra. unfold Spec.noteNumber.
  split; [|split].
  - intros Hy. by rewrite !degreeIndex_above by lra.
  - intros Hy. by rewrite !degreeIndex_below by lra.
  - eauto.
Qed.

Lemma C5_pitch_clamped_witness :
  currentMidiNoteOf "#FF0000" (Fin (-7)) (Fin 400)
  = currentMidiNoteOf "#FF0000" (Fin 0) (Fin 400)
  /\ currentMidiNoteOf "#FF0000" (Fin 1000) (Fin 400)
     = currentMidiNoteOf "#FF0000" (Fin 400) (Fin 400).
Proof.
  split.
  - apply (C5_pitch_clamped "#FF0000" 400 (-7)); by vm_compute.
  - apply (C5_pitch_clamped "#FF0000" 400 1000); by vm_compute.
Defined.

(** ** C7, C10: colours *)

(** Settles [~ recognized c] for a literal colour [c]. *)
Ltac not_a_case :=
  let H := fresh in
  vm_compute; intros H;
  repeat (apply elem_of_cons in H as [H|H]; [discriminate H|]);
  by apply elem_of_nil in H.

Lemma unrecognized_default color :
  ~ recognized color -> getColorOctaveAndScale color = defaultScaleSpec.
Proof.
  unfold recognized, recognizedColors, getColorOctaveAndScale. intros Hnot.
  destruct (String.eqb_spec (toUpperCase color) "#FF0000"); [done|].
  destruct (String.eqb_spec (toUpperCase color) "#00FF00") as [E|_].
  { exfalso. apply Hnot. rewrite E. set_solver. }
  destruct (String.eqb_spec (toUpperCase color) "#0000FF") as [E|_].
  { exfalso. apply Hnot. rewrite E. set_solver. }
  by repeat case_match.
Qed.

(** C7.  A colour the [switch] does not recognise is given the default
    scale specification, octave offset 0 with the diatonic-major intervals
    [0,2,4,5,7,9,11]; and for every colour whatsoever the lookup returns a
    non-empty scale and the note of a height is an integer (on a canvas of
    non-zero height). *)
Theorem C7_unknown_color_default (color : string) :
  (~ recognized color ->
   getColorOctaveAndScale color
   = {| octaveOffset := 0; scale := [0; 2; 4; 5; 7; 9; 11]%Z |})
  /\ scale (getColorOctaveAndScale color) ≠ []
  /\ forall y canvasHeight : Q,
       ~ canvasHeight == 0 ->
       exists n : Z,
         currentMidiNoteOf color (Fin y) (Fin canvasHeight) = int n.
Proof.
  split; [apply unrecognized_default|]. split; [done|].
  intros y h Hh. rewrite currentMidiNoteOf_spec by done. eauto.
Qed.

Lemma C7_unknown_color_default_witness :
  getColorOctaveAndScale "purple"
  = {| octaveOffset := 0; scale := [0; 2; 4; 5; 7; 9; 11]%Z |}
  /\ exists n : Z, currentMidiNoteOf "purple" (Fin 123) (Fin 400) = int n.
Proof.
  destruct (C7_unknown_color_default "purple") as (Hdef & _ & Hnote).
  split.
  - apply Hdef. not_a_case.
  - apply (Hnote 123 400). by vm_compute.
Defined.

(** C10.  Yellow is given octave offset 0 and the diatonic-major scale,
    and for every height and canvas height a yellow, a black and a red
    sample and a sample of any unrecognised colour all get the same
    note. *)
Theorem C10_yellow_is_base_octave (color : string) (y canvasHeight : number) :
  ~ recognized color ->
  getColorOctaveAndScale "#FFFF00"
  = {| octaveOffset := 0; scale := DIATONIC_MAJOR_INTERVALS |}
  /\ currentMidiNoteOf "#FFFF00" y canvasHeight
     = currentMidiNoteOf "#000000" y canvasHeight
  /\ currentMidiNoteOf "#FFFF00" y canvasHeight
     = currentMidiNoteOf "#FF0000" y canvasHeight
  /\ currentMidiNoteOf "#FFFF00" y canvasHeight
     = currentMidiNoteOf color y canvasHeight.
Proof.
  intros Hnot. unfold currentMidiNoteOf.
  rewrite (unrecognized_default color Hnot). done.
Qed.

Lemma C10_yellow_is_base_octave_witness :
  currentMidiNoteOf "#FFFF00" (Fin 120) (Fin 400)
  = currentMidiNoteOf "teal" (Fin 120) (Fin 400).
Proof.
  apply (C10_yellow_is_base_octave "teal" (Fin 120) (Fin 400)).
  not_a_case.
Defined.

(** ** Sorting by a numeric key *)

Section SortByKey.
Context {A : Type} (key : A -> Q).

Lemma byKey_positive a b :
  (int 0 <? byKey key a b)%num = true <-> key b < key a.
Proof.
  unfold byKey, sub, add, neg, ltb, int.
  destruct (Qle_bool (key a + - key b) (inject_Z 0)) eqn:E; cbn [negb].
  - apply Qle_bool_iff in E. change (inject_Z 0) with 0 in E.
    split; [done | intros; lra].
  - split; [intros _ | done].
    destruct (Qlt_le_dec (key b) (key a)) as [|Hle]; [done|].
    assert (Qle_bool (key a + - key b) (inject_Z 0) = true) as E'
      by (apply Qle_bool_iff; change (inject_Z 0) with 0; lra).
    congruence.
Qed.

Lemma byKey_cases a b :
  ((int 0 <? byKey key a b)%num = true /\ key b < key a)
  \/ ((int 0 <? byKey key a b)%num = false /\ key a <= key b).
Proof.
  destruct (int 0 <? byKey key a b)%num eqn:E.
  - left. split; [done|]. by apply byKey_positive.
  - right. split; [done|]. destruct (Qlt_le_dec (key b) (key a)) as [Hlt|]; [|done].
    apply byKey_positive in Hlt. congruence.
Qed.

Lemma sort_insert_perm a (l : list A) : sort_insert (byKey key) a l ≡ₚ a :: l.
Proof.
  induction l as [|b l IH]; cbn [sort_insert]; [done|].
  destruct (int 0 <? byKey key a b)%num; [|done].
  rewrite IH. apply Permutation_swap.
Qed.

Lemma Array_sort_perm (l : list A) : Array_sort (byKey key) l ≡ₚ l.
Proof.
  induction l as [|a l IH]; [done|].
  change (Array_sort (byKey key) (a :: l))
    with (sort_insert (byKey key) a (Array_sort (byKey key) l)).
  by rewrite sort_insert_perm, IH.
Qed.

Lemma sort_insert_sorted a (l : list A) :
  StronglySorted (key_le key) l -> StronglySorted (key_le key) (sort_insert (byKey key) a l).
Proof.
  induction 1 as [|b l Hl IH Hb]; cbn [sort_insert].
  - repeat constructor.
  - destruct (byKey_cases a b) as [[-> Hlt]|[-> Hle]].
    + constructor; [done|].
      rewrite sort_insert_perm. constructor; [|done]. unfold key_le. lra.
    + constructor; [by constructor|]. constructor; [done|].
      eapply Forall_impl; [exact Hb|]. unfold key_le. intros c Hc. lra.
Qed.

Lemma Array_sort_sorted (l : list A) : StronglySorted (key_le key) (Array_sort (byKey key) l).
Proof.
  induction l as [|a l IH]; [constructor|].
  by apply sort_insert_sorted.
Qed.

(** The sort is stable: the elements of a given key keep their order. *)
Lemma sort_insert_stable k a (l : list A) :
  filter (fun c => key c == k) (sort_insert (byKey key) a l)
  = filter (fun c => key c == k) (a :: l).
Proof.
  induction l as [|b l IH]; cbn [sort_insert]; [done|].
  destruct (byKey_cases a b) as [[-> Hlt]|[-> Hle]]; [|done].
  rewrite filter_cons, IH, !(filter_cons _ a), (filter_cons _ b).
  destruct (decide (key b == k)) as [Eb|], (decide (key a == k)) as [Ea|];
    try done.
  rewrite Eb, Ea in Hlt. lra.
Qed.

Lemma Array_sort_stable k (l : list A) :
  filter (fun c => key c == k) (Array_sort (byKey key) l)
  = filter (fun c => key c == k) l.
Proof.
  induction l as [|a l IH]; [done|].
  change (Array_sort (byKey key) (a :: l))
    with (sort_insert (byKey key) a (Array_sort (byKey key) l)).
  by rewrite sort_insert_stable, !(filter_cons _ a), IH.
Qed.

(** The head of the sorted array is the first element of least key. *)
Lemma first_least_le rep l : first_least key rep l -> Forall (key_le key rep) l.
Proof.
  intros (l1 & l2 & -> & H1 & H2). apply Forall_app. split.
  - eapply Forall_impl; [exact H1|]. unfold key_le. intros; lra.
  - constructor; [unfold key_le; lra | done].
Qed.

Lemma Array_sort_head (l : list A) :
  l ≠ [] -> exists rep, Array_sort (byKey key) l !! 0%nat = Some rep /\ first_least key rep l.
Proof.
  induction l as [|a l IH]; [done|]. intros _.
  change (Array_sort (byKey key) (a :: l))
    with (sort_insert (byKey key) a (Array_sort (byKey key) l)).
  destruct l as [|b l].
  { exists a. split; [done|]. exists [], []. by repeat split. }
  destruct IH as (rep & Hhd & Hrep); [done|].
  destruct (Array_sort (byKey key) (b :: l)) as [|r s] eqn:Es; [done|].
  injection Hhd as ->. cbn [sort_insert].
  destruct (byKey_cases a rep) as [[-> Hlt]|[-> Hle]].
  - exists rep. split; [done|].
    destruct Hrep as (l1 & l2 & El & H1 & H2).
    exists (a :: l1), l2. rewrite El. repeat split; [|done]. by constructor.
  - exists a. split; [done|]. exists [], (b :: l). repeat split; [done|].
    apply first_least_le in Hrep. eapply Forall_impl; [exact Hrep|].
    unfold key_le. intros c Hc. lra.
Qed.
End SortByKey.

(** ** Time slots *)

Lemma pushPoint_slotOf width slots point :
  pushPoint width slots point
  = match slotOf width point with
    | Some i => alter (fun g => g ++ [point]) i slots
    | None => slots
    end.
Proof. unfold pushPoint, slotOf. cbv zeta. by case_match. Qed.

Lemma foldl_pushPoint_length width l slots :
  length (foldl (pushPoint width) slots l) = length slots.
Proof.
  revert slots. induction l as [|p l IH]; intros slots; [done|].
  cbn [foldl]. rewrite IH, pushPoint_slotOf.
  destruct (slotOf width p); [apply length_alter | done].
Qed.

Lemma foldl_pushPoint_lookup width l slots i :
  foldl (pushPoint width) slots l !! i
  = (fun g => g ++ filter (fun p => slotOf width p = Some i) l) <$> slots !! i.
Proof.
  revert slots. induction l as [|p l IH]; intros slots.
  - cbn [foldl]. rewrite filter_nil.
    destruct (slots !! i) as [g|]; cbn; [by rewrite app_nil_r | done].
  - cbn [foldl]. rewrite IH, pushPoint_slotOf.
    destruct (slotOf width p) as [j|] eqn:Ej.
    + destruct (decide (j = i)) as [->|Hne].
      * rewrite list_lookup_alter_eq, filter_cons_True by done.
        destruct (slots !! i) as [g|]; cbn; [|done].
        by rewrite <- app_assoc.
      * rewrite list_lookup_alter_ne by done.
        rewrite filter_cons_False by congruence. done.
    + rewrite filter_cons_False by congruence. done.
Qed.

Lemma numTimeSteps_eq : numTimeSteps = 32%Z.
Proof. reflexivity. Qed.

Lemma notesInTimeSlotsOf_length width pts :
  length (notesInTimeSlotsOf width pts) = 32%nat.
Proof.
  unfold notesInTimeSlotsOf. by rewrite foldl_pushPoint_length, length_replicate.
Qed.

Lemma notesInTimeSlotsOf_lookup width pts i :
  (i < 32)%nat ->
  notesInTimeSlotsOf width pts !! i = Some (slotSamples width pts i).
Proof.
  intros Hi. unfold notesInTimeSlotsOf, slotSamples.
  rewrite foldl_pushPoint_lookup, lookup_replicate_2; [done|].
  rewrite numTimeSteps_eq. lia.
Qed.

(** On a canvas of non-zero width the slot index is the floor of
    [x * 31 / width]. *)
Lemma timeSlotIndexOf_fin (width : Q) (point : Point.t) :
  ~ width == 0 ->
  timeSlotIndexOf width point = int (Qfloor (Point.x point * 31 / width)).
Proof.
  intros Hw. unfold timeSlotIndexOf. rewrite int_sub. unfold int at 1 2 3.
  rewrite mapRange_fin by done. cbn [Math_floor]. f_equal.
  apply Qfloor_comp. rewrite numTimeSteps_eq.
  change (inject_Z 0) with 0. change (inject_Z (32 - 1)) with 31. field. done.
Qed.

Lemma slot_quotient_bounds (x width : Q) :
  0 < width -> 0 <= x <= width ->
  (0 <= Qfloor (x * 31 / width) <= 31)%Z
  /\ (Qfloor (x * 31 / width) = 31%Z <-> x == width).
Proof.
  intros Hw [Hx0 Hx1]. set (q := x * 31 / width).
  assert (q * width == x * 31) as Hq by (unfold q; field; lra).
  assert (0 <= q) as Hq0 by (apply Qle_shift_div_l; lra).
  assert (q <= 31) as Hq1 by (apply Qle_shift_div_r; lra).
  pose proof (Qfloor_resp_le _ _ Hq0) as F0.
  pose proof (Qfloor_resp_le _ _ Hq1) as F1.
  change (Qfloor 0) with 0%Z in F0. change (Qfloor 31) with 31%Z in F1.
  split; [lia|]. split.
  - intros E. pose proof (Qfloor_le q) as Hle. rewrite E in Hle.
    change (inject_Z 31) with 31 in Hle.
    assert (31 * width <= q * width) by (apply Qmult_le_compat_r; lra).
    lra.
  - intros E.
    assert (q == 31) as -> by (unfold q; rewrite E; field; lra). done.
Qed.

Lemma sortedPointsOf_perm pts : sortedPointsOf pts ≡ₚ pts.
Proof. apply (Array_sort_perm Point.x). Qed.

Lemma slotOf_int width point k :
  timeSlotIndexOf width point = int k -> (0 <= k < numTimeSteps)%Z ->
  slotOf width point = Some (Z.to_nat k).
Proof.
  intros E Hk. unfold slotOf. cbv zeta. rewrite E, geb_int, ltb_int.
  destruct (Z.leb_spec 0 k); [|lia]. destruct (Z.ltb_spec k numTimeSteps); [|lia].
  cbn [andb]. unfold to_index, int. by rewrite Qfloor_Z.
Qed.

(** C3.  On a canvas of positive width, a sample whose [x] lies in
    [[0, width]] gets an integer slot index in [[0, numTimeSteps)]; the
    index is [numTimeSteps - 1] exactly when [x] is the width; the guard
    of the discard branch holds, so the sample is pushed to its slot, and
    it is among the samples of that slot whenever it is in the store. *)
Theorem C3_in_bounds_slot (width : Q) (point : Point.t) :
  0 < width -> 0 <= Point.x point <= width ->
  exists k : Z,
    timeSlotIndexOf width point = int k
    /\ (0 <= k < numTimeSteps)%Z
    /\ (k = (numTimeSteps - 1)%Z <-> Point.x point == width)
    /\ (forall slots,
          pushPoint width slots point
          = alter (fun g => g ++ [point]) (Z.to_nat k) slots)
    /\ (forall pts,
          point ∈ pts ->
          exists g, notesInTimeSlotsOf width pts !! Z.to_nat k = Some g
                    /\ point ∈ g).
Proof.
  intros Hw Hx. exists (Qfloor (Point.x point * 31 / width)).
  destruct (slot_quotient_bounds _ _ Hw Hx) as [Hk Hlast].
  rewrite numTimeSteps_eq.
  assert (timeSlotIndexOf width point
          = int (Qfloor (Point.x point * 31 / width))) as E
    by (apply timeSlotIndexOf_fin; lra).
  assert (slotOf width point
          = Some (Z.to_nat (Qfloor (Point.x point * 31 / width)))) as Hs
    by (apply slotOf_int; [done | rewrite numTimeSteps_eq; lia]).
  split; [done|]. split; [lia|]. split; [done|]. split.
  - intros slots. by rewrite pushPoint_slotOf, Hs.
  - intros pts Hin. eexists. split.
    + apply notesInTimeSlotsOf_lookup. lia.
    + apply list_elem_of_filter. split; [done|].
      by rewrite sortedPointsOf_perm.
Qed.

Lemma C3_in_bounds_slot_witness :
  exists k : Z,
    timeSlotIndexOf 600 (Point.make 600 10 "#FF0000" 5) = int k
    /\ (0 <= k < numTimeSteps)%Z
    /\ (k = (numTimeSteps - 1)%Z
        <-> Point.x (Point.make 600 10 "#FF0000" 5) == 600).
Proof.
  destruct (C3_in_bounds_slot 600 (Point.make 600 10 "#FF0000" 5))
    as (k & H1 & H2 & H3 & _).
  - reflexivity.
  - cbn [Point.x]. lra.
  - exists k. split; [exact H1 | split; [exact H2 | exact H3]].
Defined.

(** ** C2: one tone per slot, from the topmost sample *)

Lemma playSlot_nil env i : playSlot env i [] = [].
Proof. reflexivity. Qed.

Lemma playSlot_first_least env i (g : list Point.t) :
  g ≠ [] ->
  exists rep, playSlot env i g = [toneOf env i rep]
              /\ first_least Point.y rep g.
Proof.
  intros Hne. destruct (Array_sort_head Point.y g Hne) as (rep & Hhd & Hrep).
  exists rep. split; [|done]. unfold playSlot.
  destruct g; [done|]. cbn [length Nat.eqb].
  by rewrite Hhd.
Qed.

Lemma playSlot_slotIndex env i g e : e ∈ playSlot env i g -> slotIndex e = i.
Proof.
  destruct g as [|p g]; [by rewrite playSlot_nil; intros ?%elem_of_nil|].
  destruct (playSlot_first_least env i (p :: g)) as (rep & -> & _); [done|].
  by intros ->%list_elem_of_singleton.
Qed.

Lemma filter_playSlot env (k i : nat) g :
  filter (fun e => slotIndex e = i) (playSlot env k g)
  = if decide (k = i) then playSlot env k g else [].
Proof.
  destruct g as [|p g]; [rewrite playSlot_nil; by case_decide|].
  destruct (playSlot_first_least env k (p :: g)) as (rep & -> & _); [done|].
  case_decide.
  - by rewrite filter_cons_True, filter_nil.
  - by rewrite filter_cons_False, filter_nil.
Qed.

Lemma imap_playSlot_shift env (k : nat) (slots : list (list Point.t)) :
  imap ((fun j => playSlot env (k + j)%nat) ∘ S) slots
  = imap (fun j => playSlot env (S k + j)%nat) slots.
Proof. apply imap_ext. intros; cbn; f_equal; lia. Qed.

(** The events of one slot among those of a whole pass over the slots. *)
Lemma filter_slot_events env (slots : list (list Point.t)) (k i : nat) :
  filter (fun e => slotIndex e = i)
    (mjoin (imap (fun j => playSlot env (k + j)%nat) slots))
  = if decide (k <= i)%nat
    then from_option (playSlot env i) [] (slots !! (i - k)%nat)
    else [].
Proof.
  revert k. induction slots as [|g slots IH]; intros k.
  - by case_decide.
  - rewrite imap_cons. cbn [mjoin list_join]. rewrite filter_app.
    rewrite imap_playSlot_shift, IH, Nat.add_0_r, filter_playSlot.
    destruct (decide (k = i)) as [->|Hne].
    + rewrite Nat.sub_diag. cbn [lookup list_lookup from_option].
      destruct (decide (S i <= i)%nat); [lia|].
      destruct (decide (i <= i)%nat); [|lia]. by rewrite app_nil_r.
    + cbn [app]. destruct (decide (S k <= i)%nat), (decide (k <= i)%nat);
        try lia; [|done].
      replace (i - k)%nat with (S (i - S k)) by lia. done.
Qed.

Lemma toneEventsOf_slot env pts i :
  (i < 32)%nat ->
  filter (fun e => slotIndex e = i) (toneEventsOf env pts)
  = playSlot env i (slotSamples (canvas_width env) pts i).
Proof.
  intros Hi. unfold toneEventsOf.
  rewrite (imap_ext _ (fun j => playSlot env (0 + j))) by done.
  rewrite filter_slot_events, decide_True, Nat.sub_0_r by lia.
  by rewrite notesInTimeSlotsOf_lookup.
Qed.

Lemma sortedPointsOf_sorted pts :
  StronglySorted (key_le Point.x) (sortedPointsOf pts).
Proof. apply (Array_sort_sorted Point.x). Qed.

Section SortFilter.
Context {A : Type} (key : A -> Q) (P : A -> Prop) `{!forall a, Decision (P a)}.

Lemma sort_insert_least a (l : list A) :
  Forall (key_le key a) l -> sort_insert (byKey key) a l = a :: l.
Proof.
  destruct l as [|b l]; [done|]. intros Hle. apply Forall_cons_1 in Hle as [Hb _].
  cbn [sort_insert].
  destruct (byKey_cases key a b) as [[_ Hlt]|[-> _]]; [|done].
  unfold key_le in Hb. lra.
Qed.

Lemma sort_insert_filter a (l : list A) :
  StronglySorted (key_le key) l ->
  filter P (sort_insert (byKey key) a l)
  = if decide (P a) then sort_insert (byKey key) a (filter P l) else filter P l.
Proof.
  induction 1 as [|b l Hl IH Hb]; cbn [sort_insert].
  - rewrite filter_cons, filter_nil. by case_decide.
  - destruct (byKey_cases key a b) as [[E Hlt]|[E Hle]]; rewrite E.
    + rewrite !(filter_cons _ b), IH.
      destruct (decide (P a)), (decide (P b)); try done.
      cbn [sort_insert]. by rewrite E.
    + rewrite (filter_cons _ a). destruct (decide (P a)); [|done].
      rewrite sort_insert_least; [done|].
      apply Forall_forall. intros c Hc.
      apply list_elem_of_filter in Hc as [_ Hc].
      apply elem_of_cons in Hc as [->|Hc]; [done|].
      rewrite Forall_forall in Hb. specialize (Hb c Hc).
      unfold key_le in *. lra.
Qed.

(** Sorting and filtering commute: the sort never reorders the elements
    it keeps relative to those of equal key. *)
Lemma Array_sort_filter (l : list A) :
  filter P (Array_sort (byKey key) l) = Array_sort (byKey key) (filter P l).
Proof.
  induction l as [|a l IH]; [done|].
  change (Array_sort (byKey key) (a :: l))
    with (sort_insert (byKey key) a (Array_sort (byKey key) l)).
  rewrite sort_insert_filter by apply Array_sort_sorted.
  rewrite filter_cons, IH. by case_decide.
Qed.
End SortFilter.

Lemma slotSamples_filter width pts i :
  slotSamples width pts i
  = sortedPointsOf (filter (fun p => slotOf width p = Some i) pts).
Proof. unfold slotSamples, sortedPointsOf. apply Array_sort_filter. Qed.

(** *** The pass over an evaluation of [mapRange] *)

Lemma filter_split {A : Type} (P : A -> Prop) `{!forall a, Decision (P a)}
    (l l1 l2 : list A) (r : A) :
  filter P l = l1 ++ r :: l2 ->
  exists pre post,
    l = pre ++ r :: post /\ filter P pre = l1 /\ filter P post = l2.
Proof.
  revert l1. induction l as [|a l IH]; intros l1 E.
  - by destruct l1.
  - rewrite filter_cons in E. destruct (decide (P a)) as [Ha|Ha].
    + destruct l1 as [|b l1]; injection E as -> E.
      * exists [], l. by rewrite filter_nil.
      * destruct (IH _ E) as (pre & post & -> & <- & <-).
        exists (b :: pre), post. by rewrite filter_cons_True.
    + destruct (IH _ E) as (pre & post & -> & <- & <-).
      exists (a :: pre), post. by rewrite filter_cons_False.
Qed.

(** The exact pass is the pass over the exact [mapRange]. *)
Lemma toneEventsOf_toneEventsWith env pts :
  toneEventsOf env pts = toneEventsWith mapRange env pts.
Proof. reflexivity. Qed.

(** Over [mapRange_b64], the two floored quotients are those of the
    double-precision model. *)
Lemma timeSlotIndexWith_b64 (width : Q) (point : Point.t) :
  timeSlotIndexWith mapRange_b64 width point
  = timeSlotIndexOf_b64 (B64.of_Q width) (B64.of_Q (Point.x point)).
Proof. reflexivity. Qed.

Lemma currentMidiNoteWith_b64 (color : string) (y canvas_height : Q) :
  currentMidiNoteWith mapRange_b64 color (Fin y) (Fin canvas_height)
  = currentMidiNoteOf_b64 color (B64.of_Q y) (B64.of_Q canvas_height).
Proof.
  unfold currentMidiNoteWith, currentMidiNoteOf_b64.
  rewrite getColorOctaveAndScale_eta. reflexivity.
Qed.

Section PassFacts.
Variable mapRangeAs : number -> number -> number -> number -> number -> number.

Lemma slotWith_lt width point i :
  slotWith mapRangeAs width point = Some i -> (i < 32)%nat.
Proof.
  unfold slotWith, timeSlotIndexWith. cbv zeta.
  destruct (mapRangeAs _ _ _ _ _) as [q| | |]; cbn [Math_floor]; try done.
  rewrite geb_int, ltb_int. rewrite numTimeSteps_eq.
  destruct (Z.leb_spec 0 (Qfloor q)); [|done].
  destruct (Z.ltb_spec (Qfloor q) 32); [|done].
  cbn [andb]. intros [= <-]. unfold to_index, int.
  rewrite Z.div_1_r. lia.
Qed.

Lemma pushPointWith_slot width slots point :
  pushPointWith mapRangeAs width slots point
  = match slotWith mapRangeAs width point with
    | Some i => alter (fun g => g ++ [point]) i slots
    | None => slots
    end.
Proof. unfold pushPointWith, slotWith. cbv zeta. by case_match. Qed.

Lemma foldl_pushPointWith_lookup width l slots i :
  foldl (pushPointWith mapRangeAs width) slots l !! i
  = (fun g => g ++ filter (fun p => slotWith mapRangeAs width p = Some i) l)
      <$> slots !! i.
Proof.
  revert slots. induction l as [|p l IH]; intros slots.
  - cbn [foldl]. rewrite filter_nil.
    destruct (slots !! i) as [g|]; cbn; [by rewrite app_nil_r | done].
  - cbn [foldl]. rewrite IH, pushPointWith_slot.
    destruct (slotWith mapRangeAs width p) as [j|] eqn:Ej.
    + destruct (decide (j = i)) as [->|Hne].
      * rewrite list_lookup_alter_eq, filter_cons_True by done.
        destruct (slots !! i) as [g|]; cbn; [|done].
        by rewrite <- app_assoc.
      * rewrite list_lookup_alter_ne by done.
        rewrite filter_cons_False by congruence. done.
    + rewrite filter_cons_False by congruence. done.
Qed.

Lemma notesInTimeSlotsWith_lookup width pts i :
  (i < 32)%nat ->
  notesInTimeSlotsWith mapRangeAs width pts !! i
  = Some (filter (fun p => slotWith mapRangeAs width p = Some i)
            (sortedPointsOf pts)).
Proof.
  intros Hi. unfold notesInTimeSlotsWith.
  rewrite foldl_pushPointWith_lookup, lookup_replicate_2; [done|].
  rewrite numTimeSteps_eq. lia.
Qed.

Lemma playSlotWith_first_least env i (g : list Point.t) :
  g ≠ [] ->
  exists rep, playSlotWith mapRangeAs env i g = [toneWith mapRangeAs env i rep]
              /\ first_least Point.y rep g.
Proof.
  intros Hne. destruct (Array_sort_head Point.y g Hne) as (rep & Hhd & Hrep).
  exists rep. split; [|done]. unfold playSlotWith.
  destruct g; [done|]. cbn [length Nat.eqb].
  by rewrite Hhd.
Qed.

Lemma filter_playSlotWith env (k i : nat) g :
  filter (fun e => slotIndex e = i) (playSlotWith mapRangeAs env k g)
  = if decide (k = i) then playSlotWith mapRangeAs env k g else [].
Proof.
  destruct g as [|p g]; [by case_decide|].
  destruct (playSlotWith_first_least env k (p :: g)) as (rep & -> & _); [done|].
  case_decide.
  - by rewrite filter_cons_True, filter_nil.
  - by rewrite filter_cons_False, filter_nil.
Qed.

Lemma filter_slot_eventsWith env (slots : list (list Point.t)) (k i : nat) :
  filter (fun e => slotIndex e = i)
    (mjoin (imap (fun j => playSlotWith mapRangeAs env (k + j)%nat) slots))
  = if decide (k <= i)%nat
    then from_option (playSlotWith mapRangeAs env i) [] (slots !! (i - k)%nat)
    else [].
Proof.
  revert k. induction slots as [|g slots IH]; intros k.
  - by case_decide.
  - rewrite imap_cons. cbn [mjoin list_join]. rewrite filter_app.
    rewrite (imap_ext _ (fun j => playSlotWith mapRangeAs env (S k + j)%nat))
      by (intros; cbn; f_equal; lia).
    rewrite IH, Nat.add_0_r, filter_playSlotWith.
    destruct (decide (k = i)) as [->|Hne].
    + rewrite Nat.sub_diag. cbn [lookup list_lookup from_option].
      destruct (decide (S i <= i)%nat); [lia|].
      destruct (decide (i <= i)%nat); [|lia]. by rewrite app_nil_r.
    + cbn [app]. destruct (decide (S k <= i)%nat), (decide (k <= i)%nat);
        try lia; [|done].
      replace (i - k)%nat with (S (i - S k)) by lia. done.
Qed.

Lemma toneEventsWith_slot env pts i :
  (i < 32)%nat ->
  filter (fun e => slotIndex e = i) (toneEventsWith mapRangeAs env pts)
  = playSlotWith mapRangeAs env i
      (filter (fun p => slotWith mapRangeAs (canvas_width env) p = Some i)
         (sortedPointsOf pts)).
Proof.
  intros Hi. unfold toneEventsWith.
  rewrite (imap_ext _ (fun j => playSlotWith mapRangeAs env (0 + j))) by done.
  rewrite filter_slot_eventsWith, decide_True, Nat.sub_0_r by lia.
  by rewrite notesInTimeSlotsWith_lookup.
Qed.

(** The representative of a slot, told from the store itself: every
    sample of the slot drawn before it lies strictly lower, or at the same
    height and strictly further right; every one drawn after it lies
    lower, or at the same height and not further left. *)
Lemma representative_of_slot (inSlot : Point.t -> Prop)
    `{!forall p, Decision (inSlot p)} (pts : list Point.t) (rep : Point.t) :
  first_least Point.y rep (filter inSlot (sortedPointsOf pts)) ->
  exists before after,
    pts = before ++ rep :: after
    /\ inSlot rep
    /\ Forall (fun p => inSlot p ->
                 Point.y rep < Point.y p
                 \/ (Point.y rep == Point.y p /\ Point.x rep < Point.x p))
         before
    /\ Forall (fun p => inSlot p ->
                 Point.y rep < Point.y p
                 \/ (Point.y rep == Point.y p /\ Point.x rep <= Point.x p))
         after.
Proof.
  intros (l1 & l2 & Hg & H1 & H2).
  unfold sortedPointsOf in Hg. rewrite Array_sort_filter in Hg.
  set (s := filter inSlot pts) in *.
  (* the samples of the slot, sorted by [x] *)
  assert (StronglySorted (key_le Point.x) (l1 ++ rep :: l2)) as Hsorted
    by (rewrite <- Hg; apply Array_sort_sorted).
  apply StronglySorted_app_1_r in Hsorted.
  apply StronglySorted_inv in Hsorted as [_ Hright].
  assert (forall p, p ∈ s -> p ∈ l1 \/ p = rep \/ p ∈ l2) as Hmem.
  { intros p Hp. rewrite <- (Array_sort_perm Point.x s), Hg in Hp.
    apply elem_of_app in Hp as [|Hp]; [by left|].
    apply elem_of_cons in Hp as [|]; auto. }
  assert (forall p, p ∈ s ->
            Point.y rep < Point.y p
            \/ (Point.y rep <= Point.y p /\ Point.x rep <= Point.x p)) as Hcmp.
  { intros p Hp. destruct (Hmem p Hp) as [Hp1|[->|Hp2]].
    - left. rewrite Forall_forall in H1. by apply H1.
    - right. split; apply Qle_refl.
    - right. rewrite Forall_forall in H2, Hright. split; [by apply H2|].
      by apply Hright. }
  (* stability: among the samples of the slot with the [x] of [rep],
     those before [rep] are those of [l1] *)
  pose proof (Array_sort_stable Point.x (Point.x rep) s) as Hstable.
  rewrite Hg, filter_app, filter_cons_True in Hstable by reflexivity.
  symmetry in Hstable.
  destruct (filter_split _ _ _ _ _ Hstable) as (pre1 & post1 & Hs & Hpre1 & _).
  destruct (filter_split _ _ _ _ _ Hs) as (before & after & Hpts & Hb & Ha).
  exists before, after. split; [done|].
  assert (rep ∈ s) as Hrep by (rewrite Hs; set_solver).
  split; [by apply list_elem_of_filter in Hrep as [? _]|].
  split; apply Forall_forall; intros p Hp Hin.
  - assert (p ∈ pre1) as Hp1 by (rewrite <- Hb; by apply list_elem_of_filter).
    destruct (Hcmp p) as [|[Hy Hx]]; [rewrite Hs; set_solver | by left |].
    destruct (Qlt_le_dec (Point.y rep) (Point.y p)) as [|Hy']; [by left|].
    right. split; [lra|].
    destruct (Qlt_le_dec (Point.x rep) (Point.x p)) as [|Hx']; [done|].
    exfalso.
    assert (p ∈ filter (fun c => Point.x c == Point.x rep) pre1) as Hp2.
    { apply list_elem_of_filter. split; [lra | done]. }
    rewrite Hpre1 in Hp2. apply list_elem_of_filter in Hp2 as [_ Hp2].
    rewrite Forall_forall in H1. specialize (H1 p Hp2). lra.
  - assert (p ∈ post1) as Hp1 by (rewrite <- Ha; by apply list_elem_of_filter).
    destruct (Hcmp p) as [|[Hy Hx]]; [rewrite Hs; set_solver | by left |].
    destruct (Qlt_le_dec (Point.y rep) (Point.y p)) as [|Hy']; [by left|].
    right. split; [lra | done].
Qed.
End PassFacts.

(** C2.  One pass of the click handler, whatever the evaluation of
    [mapRange] (exact or in double precision), and a slot to which at
    least one stored sample is mapped.  Exactly one tone event is emitted
    for the slot.  It is made from one stored sample of the slot, the
    representative, which is told from the store as drawn: every sample of
    the slot has a [y] at least that of the representative; among those of
    the same [y], none has a smaller [x] (the order of the [x]-sorted
    copy); and among those of the same [y] and [x], the representative is
    the first drawn.  The event carries the slot's index and time, the
    note computed from the representative's colour and [y], and the
    loudness and duration computed from its size.  No other sample of the
    slot yields an event. *)
Theorem C2_one_tone_per_slot
    (mapRangeAs : number -> number -> number -> number -> number -> number)
    (env : Env) (pts : list Point.t) (i : nat) :
  (exists p, p ∈ pts /\ slotWith mapRangeAs (canvas_width env) p = Some i) ->
  exists (rep : Point.t) (before after : list Point.t) (e : ToneEvent),
    pts = before ++ rep :: after
    /\ slotWith mapRangeAs (canvas_width env) rep = Some i
    /\ Forall (fun p =>
                 slotWith mapRangeAs (canvas_width env) p = Some i ->
                 Point.y rep < Point.y p
                 \/ (Point.y rep == Point.y p /\ Point.x rep < Point.x p))
         before
    /\ Forall (fun p =>
                 slotWith mapRangeAs (canvas_width env) p = Some i ->
                 Point.y rep < Point.y p
                 \/ (Point.y rep == Point.y p /\ Point.x rep <= Point.x p))
         after
    /\ filter (fun e' => slotIndex e' = i) (toneEventsWith mapRangeAs env pts)
       = [e]
    /\ slotIndex e = i
    /\ scheduledTime e
       = (currentTime env + int (Z.of_nat i) * (int 8 / int 32))%num
    /\ currentMidiNote e
       = noteOfScaleDegreeIndex (getColorOctaveAndScale (Point.color rep))
           (Math_max (int 0)
              (Math_min (int 13)
                 (Math_floor
                    (mapRangeAs (Fin (Point.y rep)) (Fin (canvas_height env))
                       (int 0) (int 0) (int 13)))))
    /\ velocity e
       = mapRangeAs (Fin (Point.size rep)) (minBrushSize env)
           (maxBrushSize env) (Fin 0.2) (Fin 0.5)
    /\ noteDuration e
       = mapRangeAs (Fin (Point.size rep)) (minBrushSize env)
           (maxBrushSize env) (Fin 0.8) (Fin 1.5).
Proof.
  intros (p0 & Hp0 & Hs0).
  pose proof (slotWith_lt _ _ _ _ Hs0) as Hi.
  set (inSlot := fun p => slotWith mapRangeAs (canvas_width env) p = Some i).
  set (g := filter inSlot (sortedPointsOf pts)).
  assert (g ≠ []) as Hne.
  { assert (p0 ∈ g) as Hin
      by (apply list_elem_of_filter; split; [done|];
          by rewrite sortedPointsOf_perm).
    intros E. rewrite E in Hin. by apply elem_of_nil in Hin. }
  destruct (playSlotWith_first_least mapRangeAs env i g Hne)
    as (rep & Hplay & Hrep).
  destruct (representative_of_slot inSlot pts rep Hrep)
    as (before & after & Hpts & Hin & Hb & Ha).
  exists rep, before, after, (toneWith mapRangeAs env i rep).
  split; [done|]. split; [done|]. split; [done|]. split; [done|].
  split; [by rewrite toneEventsWith_slot|].
  split; [done|]. split; [done|]. split; [|done].
  cbn [currentMidiNote toneWith]. unfold currentMidiNoteWith.
  by rewrite getColorOctaveAndScale_eta.
Qed.

Lemma C2_one_tone_per_slot_witness :
  exists (rep : Point.t) (before after : list Point.t) (e : ToneEvent),
    [Point.make 305 100 "#00FF00" 5; Point.make 295 100 "#FF0000" 8]
    = before ++ rep :: after
    /\ slotWith mapRange_b64 600 rep = Some 15%nat
    /\ Forall (fun p =>
                 slotWith mapRange_b64 600 p = Some 15%nat ->
                 Point.y rep < Point.y p
                 \/ (Point.y rep == Point.y p /\ Point.x rep < Point.x p))
         before
    /\ filter (fun e' => slotIndex e' = 15%nat)
         (toneEventsWith mapRange_b64 example_env
            [Point.make 305 100 "#00FF00" 5; Point.make 295 100 "#FF0000" 8])
       = [e].
Proof.
  destruct (C2_one_tone_per_slot mapRange_b64 example_env
              [Point.make 305 100 "#00FF00" 5; Point.make 295 100 "#FF0000" 8]
              15)
    as (rep & before & after & e & H1 & H2 & H3 & _ & H5 & _).
  - exists (Point.make 305 100 "#00FF00" 5). split.
    + constructor.
    + vm_compute. reflexivity.
  - exists rep, before, after, e.
    split; [exact H1 | split; [exact H2 | split; [exact H3 | exact H5]]].
Defined.

(** ** C6: the envelope and the oscillators of a tone *)

Lemma tenth_nonzero (v : number) :
  ~ v =n= int 0 -> ~ (v * Fin 0.1)%num =n= int 0.
Proof.
  destruct v as [q| | |]; cbn [mul eqv]; try done.
  unfold int. change (inject_Z 0) with 0. intros Hq Hz. apply Hq.
  assert (q == q * 0.1 * 10) as -> by field. rewrite Hz. reflexivity.
Qed.

Lemma masterGain_ramps_nonzero (Math_pow : number -> number -> number)
    (time midiNote velocity duration : number) :
  ~ velocity =n= int 0 ->
  Forall rampTargetsNonZero
    (masterGain_gain
       (createMusicBoxTone Math_pow time midiNote (Some velocity) (Some duration))).
Proof.
  intros Hv. unfold createMusicBoxTone. cbn [masterGain_gain default].
  repeat constructor; cbn [rampTargetsNonZero].
  - by apply tenth_nonzero.
  - cbn. discriminate.
Qed.

(** C6.  For every call with a start time, a note, a loudness and a
    duration, the events scheduled on the master gain are, in order: value
    0 at the start time, a linear ramp to the loudness 0.005 s later, an
    exponential ramp to a tenth of the loudness at start + duration * 0.3,
    and an exponential ramp to 0.0001 at start + duration; there are five
    overtone oscillators, each started at the start time and stopped at
    start + duration + 0.1.  The loudness of a tone event is not zero, and
    then no exponential ramp targets zero. *)
Theorem C6_tone_schedule (Math_pow : number -> number -> number)
    (startTime noteNumber loudness duration : number) :
  let tone :=
    createMusicBoxTone Math_pow startTime noteNumber
      (Some loudness) (Some duration) in
  masterGain_gain tone
  = [ setValueAtTime (int 0) startTime;
      linearRampToValueAtTime loudness (startTime + Fin 0.005)%num;
      exponentialRampToValueAtTime (loudness * Fin 0.1)%num
        (startTime + duration * Fin 0.3)%num;
      exponentialRampToValueAtTime (Fin 0.0001) (startTime + duration)%num ]
  /\ length (overtones tone) = 5%nat
  /\ Forall (fun o => osc_start o = startTime
                      /\ osc_stop o = (startTime + duration + Fin 0.1)%num)
       (overtones tone)
  /\ (~ loudness =n= int 0 ->
      Forall rampTargetsNonZero (masterGain_gain tone)).
Proof.
  cbv zeta. split; [done|]. split; [done|]. split.
  - unfold createMusicBoxTone, overtoneRatios. cbn [overtones imap].
    repeat constructor.
  - apply masterGain_ramps_nonzero.
Qed.

Lemma C6_tone_schedule_witness :
  Forall rampTargetsNonZero
    (masterGain_gain
       (createMusicBoxTone (fun _ _ => int 1) (int 2) (int 60)
          (Some (Fin 0.25)) (Some (Fin 0.9)))).
Proof.
  apply (C6_tone_schedule (fun _ _ => int 1) (int 2) (int 60)
           (Fin 0.25) (Fin 0.9)).
  vm_compute. discriminate.
Defined.

(** ** C8: clearing and playing an empty store *)

Lemma play_empty env st :
  isEmpty st = true ->
  play env st
  = {| console := ["Nothing to play."]; toneEvents := []; state_after := st |}.
Proof. intros E. unfold play. by rewrite E. Qed.

(** C8.  After [clearCanvas] the store is empty; a play on an empty store
    emits no tone event, logs "Nothing to play." and leaves the page as it
    was; so for every state a play right after a clear does nothing. *)
Theorem C8_clear_then_play (env : Env) (st : State) :
  isEmpty (clearCanvas st) = true
  /\ drawnPoints (clearCanvas st) = []
  /\ (isEmpty st = true ->
      toneEvents (play env st) = [] /\ state_after (play env st) = st)
  /\ toneEvents (play env (clearCanvas st)) = []
  /\ state_after (play env (clearCanvas st)) = clearCanvas st
  /\ console (play env (clearCanvas st)) = ["Nothing to play."].
Proof.
  split; [done|]. split; [done|]. split.
  - intros E. by rewrite play_empty.
  - by rewrite play_empty.
Qed.

Lemma C8_clear_then_play_witness :
  toneEvents (play example_env example_empty_state) = []
  /\ state_after (play example_env example_empty_state) = example_empty_state.
Proof.
  apply (C8_clear_then_play example_env example_empty_state). reflexivity.
Defined.

(** ** C9: determinism *)

Lemma eventSignature_playSlot env1 env2 i g :
  canvas_height env1 = canvas_height env2 ->
  minBrushSize env1 = minBrushSize env2 ->
  maxBrushSize env1 = maxBrushSize env2 ->
  eventSignature <$> playSlot env1 i g = eventSignature <$> playSlot env2 i g.
Proof.
  intros Hh Hmin Hmax. unfold playSlot.
  destruct (length g =? 0)%nat; [done|].
  destruct (_ !! 0%nat) as [rep|]; [|done].
  cbn. unfold eventSignature, toneOf. cbn. by rewrite Hh, Hmin, Hmax.
Qed.

Lemma eventSignature_slots env1 env2 (slots : list (list Point.t)) (k : nat) :
  canvas_height env1 = canvas_height env2 ->
  minBrushSize env1 = minBrushSize env2 ->
  maxBrushSize env1 = maxBrushSize env2 ->
  eventSignature <$> mjoin (imap (fun j => playSlot env1 (k + j)%nat) slots)
  = eventSignature <$> mjoin (imap (fun j => playSlot env2 (k + j)%nat) slots).
Proof.
  intros Hh Hmin Hmax. revert k.
  induction slots as [|g slots IH]; intros k; [done|].
  rewrite !imap_cons. cbn [mjoin list_join]. rewrite !fmap_app.
  rewrite (eventSignature_playSlot env1 env2) by done. f_equal.
  rewrite !imap_playSlot_shift. apply IH.
Qed.

Lemma getAudioContext_drawnPoints fresh st :
  drawnPoints (getAudioContext fresh st) = drawnPoints st.
Proof.
  destruct st as [d c b pts [[]|]]; destruct fresh; reflexivity.
Qed.

(** C9.  Two plays on stores holding the same samples in the same order,
    with the same canvas dimensions and brush-size bounds, emit the same
    list of tone events as far as slot, note, loudness and duration go,
    whatever the clock and the rest of the page state are; and a play does
    not change the store, so playing again repeats the same list. *)
Theorem C9_deterministic (env1 env2 : Env) (st1 st2 : State) :
  drawnPoints st1 = drawnPoints st2 ->
  canvas_width env1 = canvas_width env2 ->
  canvas_height env1 = canvas_height env2 ->
  minBrushSize env1 = minBrushSize env2 ->
  maxBrushSize env1 = maxBrushSize env2 ->
  eventSignature <$> toneEvents (play env1 st1)
  = eventSignature <$> toneEvents (play env2 st2)
  /\ drawnPoints (state_after (play env1 st1)) = drawnPoints st1
  /\ eventSignature <$> toneEvents (play env2 (state_after (play env1 st1)))
     = eventSignature <$> toneEvents (play env1 st1).
Proof.
  intros Hpts Hw Hh Hmin Hmax.
  assert (forall st, drawnPoints (state_after (play env1 st)) = drawnPoints st)
    as Hkeep.
  { intros st. unfold play. destruct (isEmpty st); [done|].
    apply getAudioContext_drawnPoints. }
  assert (forall sa sb, drawnPoints sa = drawnPoints sb ->
            eventSignature <$> toneEvents (play env1 sa)
            = eventSignature <$> toneEvents (play env2 sb)) as Hsame.
  { intros sa sb E. unfold play, isEmpty. rewrite E.
    destruct (length (drawnPoints sb) =? 0)%nat; [done|].
    cbn [toneEvents]. unfold toneEventsOf. rewrite Hw.
    apply (eventSignature_slots env1 env2 _ 0); done. }
  split; [by apply Hsame|]. split; [apply Hkeep|].
  symmetry. apply Hsame. by rewrite Hkeep.
Qed.

Lemma C9_deterministic_witness :
  eventSignature <$> toneEvents (play example_env example_state)
  = eventSignature <$> toneEvents (play example_env_later example_state).
Proof.
  apply (C9_deterministic example_env example_env_later
           example_state example_state); reflexivity.
Defined.


(** ** The tones a play emits *)

(** Every emitted event is the tone of a stored sample, for a slot of the
    grid. *)
Lemma toneEventsOf_elem env pts e :
  e ∈ toneEventsOf env pts ->
  exists i rep, (i < 32)%nat /\ rep ∈ pts /\ e = toneOf env i rep.
Proof.
  intros He.
  assert (e ∈ filter (fun e' => slotIndex e' = slotIndex e) (toneEventsOf env pts))
    as Hf by (by apply list_elem_of_filter).
  unfold toneEventsOf in Hf.
  rewrite (imap_ext _ (fun j => playSlot env (0 + j)%nat)) in Hf by done.
  rewrite filter_slot_events, decide_True, Nat.sub_0_r in Hf by lia.
  destruct (notesInTimeSlotsOf (canvas_width env) pts !! slotIndex e)
    as [g|] eqn:Eg; [|by apply elem_of_nil in Hf].
  assert (slotIndex e < 32)%nat as Hi.
  { apply lookup_lt_Some in Eg. by rewrite notesInTimeSlotsOf_length in Eg. }
  rewrite notesInTimeSlotsOf_lookup in Eg by done. injection Eg as <-.
  cbn [from_option] in Hf.
  destruct (slotSamples (canvas_width env) pts (slotIndex e)) as [|p g] eqn:Es;
    [by apply elem_of_nil in Hf|].
  destruct (playSlot_first_least env (slotIndex e) (p :: g))
    as (rep & Hplay & l1 & l2 & Hl & _); [done|].
  rewrite Hplay in Hf. apply list_elem_of_singleton in Hf.
  exists (slotIndex e), rep. split; [done|]. split; [|done].
  assert (rep ∈ slotSamples (canvas_width env) pts (slotIndex e)) as Hin.
  { rewrite Es, Hl. apply elem_of_app. right. apply elem_of_cons. by left. }
  apply list_elem_of_filter in Hin as [_ Hin].
  by rewrite sortedPointsOf_perm in Hin.
Qed.

(** With brush bounds [lo < hi] and every stored size between them, the
    loudness of an emitted tone lies in [[0.2, 0.5]] and its duration in
    [[0.8, 1.5]]; in particular the loudness is positive. *)
Lemma toneEventsOf_loudness env pts (lo hi : Q) e :
  minBrushSize env = Fin lo -> maxBrushSize env = Fin hi -> lo < hi ->
  Forall (fun p => lo <= Point.size p <= hi) pts ->
  e ∈ toneEventsOf env pts ->
  (exists v, velocity e = Fin v /\ 0.2 <= v <= 0.5)
  /\ (exists d, noteDuration e = Fin d /\ 0.8 <= d <= 1.5)
  /\ (int 0 <? velocity e)%num = true.
Proof.
  intros Hmin Hmax Hlt Hsizes He.
  destruct (toneEventsOf_elem env pts e He) as (i & rep & _ & Hrep & ->).
  rewrite Forall_forall in Hsizes. specialize (Hsizes rep Hrep).
  cbn [toneOf velocity noteDuration]. rewrite Hmin, Hmax.
  rewrite !mapRange_fin by lra.
  set (s := Point.size rep) in *.
  assert (0 <= (s - lo) / (hi - lo)) as H0 by (apply Qle_shift_div_l; lra).
  assert ((s - lo) / (hi - lo) <= 1) as H1 by (apply Qle_shift_div_r; lra).
  assert ((s - lo) * (0.5 - 0.2) / (hi - lo) == 0.3 * ((s - lo) / (hi - lo)))
    as Ev by (field; lra).
  assert ((s - lo) * (1.5 - 0.8) / (hi - lo) == 0.7 * ((s - lo) / (hi - lo)))
    as Ed by (field; lra).
  split; [|split].
  - eexists. split; [done|]. rewrite Ev. lra.
  - eexists. split; [done|]. rewrite Ed. lra.
  - unfold ltb, int.
    destruct (Qle_bool _ (inject_Z 0)) eqn:E; [|done].
    apply Qle_bool_iff in E. change (inject_Z 0) with 0 in E.
    rewrite Ev in E. lra.
Qed.

(** So the tones a play schedules never ramp exponentially to zero. *)
Lemma played_tones_ramps_nonzero (Math_pow : number -> number -> number)
    env pts (lo hi : Q) :
  minBrushSize env = Fin lo -> maxBrushSize env = Fin hi -> lo < hi ->
  Forall (fun p => lo <= Point.size p <= hi) pts ->
  Forall (fun tone => Forall rampTargetsNonZero (masterGain_gain tone))
    (soundOf Math_pow (toneEventsOf env pts)).
Proof.
  intros Hmin Hmax Hlt Hsizes. unfold soundOf.
  apply Forall_fmap, Forall_forall. intros e He. unfold compose.
  destruct (toneEventsOf_loudness env pts lo hi e Hmin Hmax Hlt Hsizes He)
    as ((v & Ev & Hv) & _).
  apply masterGain_ramps_nonzero. rewrite Ev. cbn [eqv]. unfold int.
  change (inject_Z 0) with 0. lra.
Qed.

(** ** The scenarios of the specification, run on a 600 x 400 canvas *)

Example scenario_two_samples :
  (fun e => (slotIndex e, currentMidiNote e))
    <$> toneEventsOf example_env
          [Point.make 10 400 "#FF0000" 5; Point.make 590 0 "#00FF00" 20]
  = [(0%nat, int 60); (30%nat, int 95)].
Proof. vm_compute. reflexivity. Qed.

Example scenario_same_slot :
  toneEventsOf example_env
    [Point.make 300 50 "#FF0000" 5; Point.make 300 350 "#FF0000" 5]
  = [toneOf example_env 15 (Point.make 300 50 "#FF0000" 5)].
Proof. vm_compute. reflexivity. Qed.

Example scenario_lower_case_colour :
  getColorOctaveAndScale "#00ff00"
  = {| octaveOffset := 12; scale := DIATONIC_MAJOR_INTERVALS |}
  /\ getColorOctaveAndScale "#0000Ff"
     = {| octaveOffset := -12; scale := DIATONIC_MAJOR_INTERVALS |}.
Proof. split; reflexivity. Qed.

Example scenario_nothing_to_play :
  toneEvents (play example_env example_empty_state) = [].
Proof. reflexivity. Qed.

Example scenario_draw_clear_play :
  toneEvents (play example_env (clearCanvas example_state)) = []
  /\ length (toneEvents (play example_env example_state)) = 2%nat.
Proof. split; vm_compute; reflexivity. Qed.

(** Outside the canvas: a height of 0 makes [mapRange] divide by zero, and
    the clamp turns the infinity into the top degree; a sample far to the
    right of the canvas fails the guard and is not played. *)
Example scenario_zero_height :
  currentMidiNoteOf "#FF0000" (Fin 200) (Fin 0) = int 83
  /\ currentMidiNoteOf "#FF0000" (Fin 0) (Fin 0) = NaN.
Proof. split; vm_compute; reflexivity. Qed.

Example scenario_right_of_canvas :
  slotOf 600 (Point.make 601 10 "#FF0000" 5) = Some 31%nat
  /\ slotOf 600 (Point.make 640 10 "#FF0000" 5) = None
  /\ slotOf 600 (Point.make (-1) 10 "#FF0000" 5) = None.
Proof. repeat split; vm_compute; reflexivity. Qed.

(** * Further properties of the code *)

(** ** [mapRange] *)

(** X1.  When the input range is not degenerate, [mapRange] sends its
    lower end to the lower end of the output range and its upper end to
    the upper end. *)
Theorem mapRange_endpoints (inMin inMax outMin outMax : Q) :
  ~ inMax == inMin ->
  mapRange (Fin inMin) (Fin inMin) (Fin inMax) (Fin outMin) (Fin outMax)
    =n= Fin outMin
  /\ mapRange (Fin inMax) (Fin inMin) (Fin inMax) (Fin outMin) (Fin outMax)
       =n= Fin outMax.
Proof.
  intros Hne. rewrite !mapRange_fin by done. cbn [eqv].
  split; field; intros E; apply Hne; lra.
Qed.

Lemma mapRange_endpoints_witness :
  mapRange (Fin 2) (Fin 2) (Fin 20) (Fin 0.2) (Fin 0.5) =n= Fin 0.2
  /\ mapRange (Fin 20) (Fin 2) (Fin 20) (Fin 0.2) (Fin 0.5) =n= Fin 0.5.
Proof. apply (mapRange_endpoints 2 20 0.2 0.5). by vm_compute. Defined.

Lemma mapRange_affine (v a b c d : Q) :
  ~ b == a ->
  (v - a) * (d - c) / (b - a) + c == c + (d - c) / (b - a) * (v - a).
Proof. intros Hab. field. intros E. apply Hab. lra. Qed.

(** X2.  On an increasing input range and a non-decreasing output range
    [mapRange] is finite and non-decreasing in its value, and a value
    inside the input range is sent inside the output range. *)
Theorem mapRange_monotone (v1 v2 inMin inMax outMin outMax : Q) :
  inMin < inMax -> outMin <= outMax -> v1 <= v2 ->
  exists r1 r2,
    mapRange (Fin v1) (Fin inMin) (Fin inMax) (Fin outMin) (Fin outMax) = Fin r1
    /\ mapRange (Fin v2) (Fin inMin) (Fin inMax) (Fin outMin) (Fin outMax) = Fin r2
    /\ r1 <= r2
    /\ (inMin <= v1 -> outMin <= r1)
    /\ (v2 <= inMax -> r2 <= outMax).
Proof.
  intros Hin Hout Hv. rewrite !mapRange_fin by lra.
  eexists _, _. split; [done|]. split; [done|].
  rewrite !mapRange_affine by lra.
  set (k := (outMax - outMin) / (inMax - inMin)).
  assert (0 <= k) as Hk by (apply Qle_shift_div_l; lra).
  assert (k * (inMax - inMin) == outMax - outMin) as Hspan
    by (unfold k; field; lra).
  assert (forall u w, u <= w -> k * u <= k * w) as Hmono.
  { intros u w Huw. rewrite !(Qmult_comm k). by apply Qmult_le_compat_r. }
  split; [|split].
  - pose proof (Hmono (v1 - inMin) (v2 - inMin) ltac:(lra)). lra.
  - intros H1. pose proof (Hmono 0 (v1 - inMin) ltac:(lra)) as H.
    rewrite Qmult_0_r in H. lra.
  - intros H2. pose proof (Hmono (v2 - inMin) (inMax - inMin) ltac:(lra)). lra.
Qed.

Lemma mapRange_monotone_witness :
  exists r1 r2,
    mapRange (Fin 5) (Fin 2) (Fin 20) (Fin 0.8) (Fin 1.5) = Fin r1
    /\ mapRange (Fin 9) (Fin 2) (Fin 20) (Fin 0.8) (Fin 1.5) = Fin r2
    /\ r1 <= r2.
Proof.
  destruct (mapRange_monotone 5 9 2 20 0.8 1.5) as (r1 & r2 & H1 & H2 & H3 & _);
    [by vm_compute..|].
  exists r1, r2. split; [exact H1 | split; [exact H2 | exact H3]].
Defined.

(** X3.  When the two ends of the input range coincide, [mapRange] divides
    by zero: its result is never a finite number, and it is [NaN] when the
    value sits on the range or the output range is a single point. *)
Theorem mapRange_degenerate (v inMin inMax outMin outMax : Q) :
  inMax == inMin ->
  is_finite
    (mapRange (Fin v) (Fin inMin) (Fin inMax) (Fin outMin) (Fin outMax)) = false
  /\ (v == inMin \/ outMax == outMin ->
      mapRange (Fin v) (Fin inMin) (Fin inMax) (Fin outMin) (Fin outMax) = NaN).
Proof.
  intros E. unfold mapRange, sub, mul, div, add, neg.
  assert (Qeq_bool (inMax + - inMin) 0 = true) as ->
    by (apply Qeq_bool_iff; lra).
  split.
  - by destruct ((v + - inMin) * (outMax + - outMin) ?= 0).
  - intros Hz.
    assert ((v + - inMin) * (outMax + - outMin) == 0) as Hzero.
    { destruct Hz as [Hz|Hz]; rewrite Hz; ring. }
    apply Qeq_alt in Hzero. by rewrite Hzero.
Qed.

Lemma mapRange_degenerate_witness :
  is_finite (mapRange (Fin 5) (Fin 7) (Fin 7) (Fin 0.2) (Fin 0.5)) = false.
Proof. apply (mapRange_degenerate 5 7 7 0.2 0.5). reflexivity. Defined.

(** ** The notes a canvas can play *)

Lemma octaveOffset_cases color :
  let off := octaveOffset (getColorOctaveAndScale color) in
  off = 0%Z \/ off = 12%Z \/ off = (-12)%Z.
Proof.
  unfold getColorOctaveAndScale. cbn [octaveOffset].
  repeat case_match; auto.
Qed.

Lemma noteNumber_color color y h :
  Spec.noteNumber (getColorOctaveAndScale color) y h
  = (octaveOffset (getColorOctaveAndScale color)
     + Spec.noteNumber defaultScaleSpec y h)%Z.
Proof.
  unfold Spec.noteNumber, Spec.noteOfDegree.
  rewrite getColorOctaveAndScale_eta. cbn [scale octaveOffset defaultScaleSpec].
  change DIATONIC_MAJOR_INTERVALS with [0; 2; 4; 5; 7; 9; 11]%Z. ring.
Qed.

Lemma noteNumber_default_range y h :
  (60 <= Spec.noteNumber defaultScaleSpec y h <= 83)%Z.
Proof.
  unfold Spec.noteNumber.
  pose proof (degreeIndex_range (scale defaultScaleSpec) y h ltac:(done)) as Hd.
  change (Z.of_nat (length (scale defaultScaleSpec))) with 7%Z in Hd.
  set (d := Spec.degreeIndex (scale defaultScaleSpec) y h) in *.
  pose proof (diatonic_noteOfDegree_mono 0 0 d ltac:(lia) ltac:(lia)) as Hlo.
  pose proof (diatonic_noteOfDegree_mono 0 d 13 ltac:(lia) ltac:(lia)) as Hhi.
  change (Spec.noteOfDegree
            {| octaveOffset := 0; scale := DIATONIC_MAJOR_INTERVALS |})
    with (Spec.noteOfDegree defaultScaleSpec) in Hlo, Hhi.
  change (Spec.noteOfDegree defaultScaleSpec 0) with 60%Z in Hlo.
  change (Spec.noteOfDegree defaultScaleSpec 13) with 83%Z in Hhi.
  lia.
Qed.

(** X4.  On a canvas of non-zero height every note is an integer within
    two octaves above the root of its colour, [60 + octaveOffset], hence
    between 48 and 95 whatever the colour and the height. *)
Theorem note_range (color : string) (y canvasHeight : Q) :
  ~ canvasHeight == 0 ->
  exists n : Z,
    currentMidiNoteOf color (Fin y) (Fin canvasHeight) = int n
    /\ (60 + octaveOffset (getColorOctaveAndScale color) <= n
        <= 83 + octaveOffset (getColorOctaveAndScale color))%Z
    /\ (48 <= n <= 95)%Z.
Proof.
  intros Hh. rewrite currentMidiNoteOf_spec by done. eexists. split; [done|].
  rewrite noteNumber_color.
  pose proof (noteNumber_default_range y canvasHeight).
  pose proof (octaveOffset_cases color) as Hoff. cbv zeta in Hoff. lia.
Qed.

Lemma note_range_witness :
  exists n : Z,
    currentMidiNoteOf "#0000FF" (Fin 390) (Fin 400) = int n /\ (48 <= n <= 95)%Z.
Proof.
  destruct (note_range "#0000FF" 390 400) as (n & H1 & _ & H2); [by vm_compute|].
  exists n. split; [exact H1 | exact H2].
Defined.

(** X5.  At a given height the notes of two colours differ by the
    difference of their octave offsets only: green plays an octave (12
    semitones) above red, blue an octave below. *)
Theorem color_shifts_octave (y canvasHeight : Q) :
  ~ canvasHeight == 0 ->
  exists base : Z,
    (forall color,
       currentMidiNoteOf color (Fin y) (Fin canvasHeight)
       = int (octaveOffset (getColorOctaveAndScale color) + base))
    /\ currentMidiNoteOf "#FF0000" (Fin y) (Fin canvasHeight) = int base
    /\ currentMidiNoteOf "#00FF00" (Fin y) (Fin canvasHeight) = int (12 + base)
    /\ currentMidiNoteOf "#0000FF" (Fin y) (Fin canvasHeight) = int (-12 + base).
Proof.
  intros Hh. exists (Spec.noteNumber defaultScaleSpec y canvasHeight).
  assert (forall color,
            currentMidiNoteOf color (Fin y) (Fin canvasHeight)
            = int (octaveOffset (getColorOctaveAndScale color)
                   + Spec.noteNumber defaultScaleSpec y canvasHeight)) as H.
  { intros color. by rewrite currentMidiNoteOf_spec, noteNumber_color. }
  split; [exact H|]. split; [|split]; by rewrite H.
Qed.

Lemma color_shifts_octave_witness :
  exists base : Z,
    currentMidiNoteOf "#FF0000" (Fin 120) (Fin 400) = int base
    /\ currentMidiNoteOf "#00FF00" (Fin 120) (Fin 400) = int (12 + base).
Proof.
  destruct (color_shifts_octave 120 400) as (b & _ & H1 & H2 & _); [by vm_compute|].
  exists b. split; [exact H1 | exact H2].
Defined.

Lemma Qfloor_ge_iff (z : Z) (q : Q) : (z <= Qfloor q)%Z <-> inject_Z z <= q.
Proof.
  split.
  - intros H. apply Qle_trans with (inject_Z (Qfloor q)); [|apply Qfloor_le].
    by rewrite <- Zle_Qle.
  - intros H. apply Qfloor_resp_le in H. by rewrite Qfloor_Z in H.
Qed.

Lemma Qfloor_lt_iff (z : Z) (q : Q) : (Qfloor q < z)%Z <-> q < inject_Z z.
Proof.
  pose proof (Qfloor_ge_iff z q) as H. split.
  - intros Hlt. apply Qnot_le_lt. intros Hle. apply H in Hle. lia.
  - intros Hlt. destruct (Z.lt_ge_cases (Qfloor q) z) as [|Hge]; [done|].
    apply H in Hge. lra.
Qed.

Lemma linearMap_times_height (y h D : Q) :
  ~ h == 0 -> Spec.linearMap y h 0 0 D * h == D * h - D * y.
Proof. intros Hh. unfold Spec.linearMap. field. lra. Qed.

Lemma default_degree_top (y h : Q) :
  0 < h -> Spec.degreeIndex (scale defaultScaleSpec) y h = 13%Z <-> y <= 0.
Proof.
  intros Hh. unfold Spec.degreeIndex, Spec.clamp.
  change (2 * Z.of_nat (length (scale defaultScaleSpec)) - 1)%Z with 13%Z.
  set (L := Spec.linearMap y h 0 0 (inject_Z 13)).
  assert (L * h == 13 * h - 13 * y) as HL
    by (unfold L; rewrite linearMap_times_height by lra; reflexivity).
  pose proof (Qfloor_ge_iff 13 L) as Hf. change (inject_Z 13) with 13 in Hf.
  pose proof (Qmult_le_r 13 L h Hh) as Hm.
  split.
  - intros E. assert (13 <= Qfloor L)%Z as Hge by lia.
    apply Hf, Hm in Hge. lra.
  - intros Hy. assert (13 <= Qfloor L)%Z by (apply Hf, Hm; lra). lia.
Qed.

Lemma default_degree_bottom (y h : Q) :
  0 < h ->
  Spec.degreeIndex (scale defaultScaleSpec) y h = 0%Z <-> 12 * h < 13 * y.
Proof.
  intros Hh. unfold Spec.degreeIndex, Spec.clamp.
  change (2 * Z.of_nat (length (scale defaultScaleSpec)) - 1)%Z with 13%Z.
  set (L := Spec.linearMap y h 0 0 (inject_Z 13)).
  assert (L * h == 13 * h - 13 * y) as HL
    by (unfold L; rewrite linearMap_times_height by lra; reflexivity).
  pose proof (Qfloor_lt_iff 1 L) as Hf. change (inject_Z 1) with 1 in Hf.
  pose proof (Qmult_lt_r L 1 h Hh) as Hm.
  split.
  - intros E. assert (Qfloor L < 1)%Z as Hlt by lia.
    apply Hf, Hm in Hlt. lra.
  - intros Hy. assert (Qfloor L < 1)%Z by (apply Hf, Hm; lra). lia.
Qed.

Lemma default_note_extremes (d : Z) :
  (0 <= d <= 13)%Z ->
  (Spec.noteOfDegree defaultScaleSpec d = 83%Z <-> d = 13%Z)
  /\ (Spec.noteOfDegree defaultScaleSpec d = 60%Z <-> d = 0%Z).
Proof.
  intros Hd. split; split; try (intros ->; reflexivity); intros E.
  - destruct (Z.eq_dec d 13) as [|Hne]; [done|].
    pose proof (diatonic_noteOfDegree_mono 0 d 12 ltac:(lia) ltac:(lia)) as H.
    change (Spec.noteOfDegree
              {| octaveOffset := 0; scale := DIATONIC_MAJOR_INTERVALS |})
      with (Spec.noteOfDegree defaultScaleSpec) in H.
    change (Spec.noteOfDegree defaultScaleSpec 12) with 81%Z in H. lia.
  - destruct (Z.eq_dec d 0) as [|Hne]; [done|].
    pose proof (diatonic_noteOfDegree_mono 0 1 d ltac:(lia) ltac:(lia)) as H.
    change (Spec.noteOfDegree
              {| octaveOffset := 0; scale := DIATONIC_MAJOR_INTERVALS |})
      with (Spec.noteOfDegree defaultScaleSpec) in H.
    change (Spec.noteOfDegree defaultScaleSpec 1) with 62%Z in H. lia.
Qed.

(** In exact arithmetic: on a canvas of positive height the highest note
    of a colour, 23 semitones above its root, is played only from the top
    edge ([y <= 0]), and its root only from the lowest thirteenth of the
    canvas ([y > 12/13] of the height). *)
Lemma extreme_notes_exact (color : string) (y canvasHeight : Q) :
  0 < canvasHeight ->
  (currentMidiNoteOf color (Fin y) (Fin canvasHeight)
   = int (83 + octaveOffset (getColorOctaveAndScale color))
   <-> y <= 0)
  /\ (currentMidiNoteOf color (Fin y) (Fin canvasHeight)
      = int (60 + octaveOffset (getColorOctaveAndScale color))
      <-> 12 * canvasHeight < 13 * y).
Proof.
  intros Hh. rewrite currentMidiNoteOf_spec, noteNumber_color by lra.
  unfold Spec.noteNumber.
  pose proof (degreeIndex_range (scale defaultScaleSpec) y canvasHeight
                ltac:(done)) as Hd.
  change (Z.of_nat (length (scale defaultScaleSpec))) with 7%Z in Hd.
  destruct (default_note_extremes
              (Spec.degreeIndex (scale defaultScaleSpec) y canvasHeight)
              ltac:(lia)) as [Htop Hbot].
  rewrite <- (default_degree_top y canvasHeight Hh).
  rewrite <- (default_degree_bottom y canvasHeight Hh).
  rewrite <- Htop, <- Hbot. split; split; intros E.
  - apply int_inj in E. lia.
  - f_equal. lia.
  - apply int_inj in E. lia.
  - f_equal. lia.
Qed.

(** On the page's canvas, of height 400, the scale degree computed in
    double precision is the exact one on every whole pixel row, from 100
    rows above the canvas to 100 rows below. *)
Lemma b64_degree_around_canvas :
  Forall (fun y =>
            B64.scaleDegreeIndexOf DIATONIC_MAJOR_INTERVALS (B64.of_Z y) 400
            = scaleDegreeIndexOf DIATONIC_MAJOR_INTERVALS (int y) (int 400))
    (pixels (-100) 500).
Proof. apply forallb_number_eqb. vm_compute. reflexivity. Qed.

Lemma elem_of_pixels (lo hi z : Z) : z ∈ pixels lo hi <-> (lo <= z <= hi)%Z.
Proof. unfold pixels. rewrite elem_of_seqZ. lia. Qed.

(** X6.  Whole pixels.  On a canvas whose height is a positive whole
    number, a sample on a whole pixel row plays the highest note of its
    colour, 23 semitones above its root, exactly when it lies on the top
    edge or above it ([y <= 0]), and the root exactly when it lies in the
    lowest thirteenth of the canvas ([13 y > 12 height]).  On the page's
    canvas, of height 400, the note computed in double precision is this
    one on every row from 100 above the canvas to 100 below it. *)
Theorem extreme_notes (color : string) (y canvasHeight : Z) :
  (0 < canvasHeight < 2147483648)%Z -> (-2147483648 < y < 2147483648)%Z ->
  (currentMidiNoteOf color (int y) (int canvasHeight)
   = int (83 + octaveOffset (getColorOctaveAndScale color))
   <-> (y <= 0)%Z)
  /\ (currentMidiNoteOf color (int y) (int canvasHeight)
      = int (60 + octaveOffset (getColorOctaveAndScale color))
      <-> (12 * canvasHeight < 13 * y)%Z)
  /\ (canvasHeight = 400%Z -> (-100 <= y <= 500)%Z ->
      currentMidiNoteOf_b64 color (B64.of_Z y) (B64.of_Z canvasHeight)
      = currentMidiNoteOf color (int y) (int canvasHeight)).
Proof.
  intros Hh Hy.
  destruct (extreme_notes_exact color (inject_Z y) (inject_Z canvasHeight))
    as [Htop Hroot].
  { change 0 with (inject_Z 0). rewrite <- Zlt_Qlt. lia. }
  split; [|split].
  - unfold int. rewrite Htop. change 0 with (inject_Z 0). by rewrite <- Zle_Qle.
  - unfold int at 1 2. rewrite Hroot.
    change 12 with (inject_Z 12). change 13 with (inject_Z 13).
    by rewrite <- !inject_Z_mult, <- Zlt_Qlt.
  - intros -> Hrow.
    pose proof b64_degree_around_canvas as Hrows. rewrite Forall_forall in Hrows.
    specialize (Hrows y (proj2 (elem_of_pixels _ _ _) Hrow)).
    unfold currentMidiNoteOf_b64, currentMidiNoteOf.
    rewrite midiNoteIn_noteOfScaleDegreeIndex, getColorOctaveAndScale_eta.
    cbn [scale]. change (B64.of_Z 400) with 400%float. by rewrite Hrows.
Qed.

Lemma extreme_notes_witness :
  (currentMidiNoteOf "#00FF00" (int 0) (int 400) = int (83 + 12)
   <-> (0 <= 0)%Z)
  /\ currentMidiNoteOf_b64 "#00FF00" (B64.of_Z 0) (B64.of_Z 400)
     = currentMidiNoteOf "#00FF00" (int 0) (int 400).
Proof.
  destruct (extreme_notes "#00FF00" 0 400) as (Htop & _ & Hb64); [lia | lia |].
  split; [exact Htop | apply Hb64; [reflexivity | lia]].
Defined.

(** ** A canvas without height or without width *)

Lemma midiNoteIn_of_degree (spec : ScaleSpec) (y h : number) (d : Z) :
  scale spec ≠ [] ->
  scaleDegreeIndexOf (scale spec) y h = int d -> (0 <= d)%Z ->
  midiNoteIn spec y h = int (Spec.noteOfDegree spec d).
Proof.
  intros Hne Hd Hd0. unfold midiNoteIn, Spec.noteOfDegree. rewrite Hd.
  assert (0 < Z.of_nat (length (scale spec)))%Z as Hlen
    by (destruct (scale spec); [done | cbn [length]; lia]).
  set (len := Z.of_nat (length (scale spec))) in *.
  pose proof (Z.mod_pos_bound d len Hlen) as Hmod.
  rewrite floor_div_int, rem_int, get_int by lia.
  destruct (lookup_lt_is_Some_2 (scale spec) (Z.to_nat (d mod len))) as [iv Hiv].
  { apply Nat2Z.inj_lt. rewrite Z2Nat.id; apply Hmod. }
  rewrite Hiv. change (ToNumber (int <$> Some iv)) with (int iv).
  rewrite (nth_lookup_Some _ _ 0%Z _ Hiv).
  unfold baseMidiRootNote. rewrite int_mul, !int_add. f_equal. ring.
Qed.

Lemma midiNoteIn_NaN (spec : ScaleSpec) (y h : number) :
  scaleDegreeIndexOf (scale spec) y h = NaN -> midiNoteIn spec y h = NaN.
Proof. intros Hd. unfold midiNoteIn. by rewrite Hd. Qed.

Lemma Qcompare_scaled (u k : Q) : 0 < k -> (u * k ?= 0) = (u ?= 0).
Proof.
  intros Hk. destruct (Qcompare_spec u 0) as [E|E|E].
  - apply Qeq_alt. rewrite E. ring.
  - apply Qlt_alt. rewrite <- (Qmult_0_l k). by apply Qmult_lt_r.
  - apply Qgt_alt. rewrite <- (Qmult_0_l k). by apply Qmult_lt_r.
Qed.

(** What [mapRange] gives for an input range [[lo, lo]] collapsed on 0 and
    an output range [[0, top]] with [top] positive: an infinity of the sign
    of the value, [NaN] at 0. *)
Lemma mapRange_collapsed (v lo hi : Q) (top : Z) :
  lo == 0 -> hi == 0 -> (0 < top)%Z ->
  mapRange (Fin v) (Fin lo) (Fin hi) (int 0) (int top) = inf_of (v ?= 0).
Proof.
  intros Hlo Hhi Htop. unfold mapRange. rewrite int_sub.
  unfold sub, mul, div, add, neg, int.
  assert (Qeq_bool (hi + - lo) 0 = true) as ->
    by (apply Qeq_bool_iff; rewrite Hlo, Hhi; reflexivity).
  assert (((v + - lo) * inject_Z (top - 0) ?= 0) = (v ?= 0)) as ->.
  { rewrite Qcompare_scaled.
    - assert (v + - lo == v) as -> by (rewrite Hlo; ring). done.
    - change 0 with (inject_Z 0). rewrite <- Zlt_Qlt. lia. }
  by destruct (v ?= 0).
Qed.

Lemma noteOfDegree_offset (off d : Z) :
  Spec.noteOfDegree {| octaveOffset := off; scale := DIATONIC_MAJOR_INTERVALS |} d
  = (off + Spec.noteOfDegree defaultScaleSpec d)%Z.
Proof.
  unfold Spec.noteOfDegree. cbn [scale octaveOffset defaultScaleSpec].
  change DIATONIC_MAJOR_INTERVALS with [0; 2; 4; 5; 7; 9; 11]%Z. ring.
Qed.

Lemma scaleDegreeIndexOf_zero_height (y h : Q) :
  h == 0 ->
  scaleDegreeIndexOf DIATONIC_MAJOR_INTERVALS (Fin y) (Fin h)
  = match y ?= 0 with Gt => int 13 | Lt => int 0 | Eq => NaN end.
Proof.
  intros Hh. unfold scaleDegreeIndexOf. cbv zeta. rewrite int_mul, int_sub.
  change (Z.of_nat (length DIATONIC_MAJOR_INTERVALS) * 2 - 1)%Z with 13%Z.
  change (mapRange (Fin y) (Fin h) (int 0) (int 0) (int 13))
    with (mapRange (Fin y) (Fin h) (Fin 0) (int 0) (int 13)).
  rewrite (mapRange_collapsed y h 0 13) by (done || lia).
  by destruct (y ?= 0).
Qed.

(** X7.  On a canvas of height 0 the height mapping divides by zero: a
    sample with positive [y] gets the highest note of its colour, one with
    negative [y] the root, and at [y = 0] the note is [NaN]. *)
Theorem zero_height_notes (color : string) (y canvasHeight : Q) :
  canvasHeight == 0 ->
  (0 < y ->
   currentMidiNoteOf color (Fin y) (Fin canvasHeight)
   = int (83 + octaveOffset (getColorOctaveAndScale color)))
  /\ (y < 0 ->
      currentMidiNoteOf color (Fin y) (Fin canvasHeight)
      = int (60 + octaveOffset (getColorOctaveAndScale color)))
  /\ (y == 0 -> currentMidiNoteOf color (Fin y) (Fin canvasHeight) = NaN).
Proof.
  intros Hh. unfold currentMidiNoteOf.
  pose proof (scaleDegreeIndexOf_zero_height y canvasHeight Hh) as Hd.
  rewrite getColorOctaveAndScale_eta.
  set (spec := {| octaveOffset := octaveOffset (getColorOctaveAndScale color);
                  scale := DIATONIC_MAJOR_INTERVALS |}).
  split; [|split]; intros Hy.
  - rewrite (proj1 (Qgt_alt y 0) Hy) in Hd.
    rewrite (midiNoteIn_of_degree spec _ _ 13) by done.
    f_equal. unfold spec. rewrite noteOfDegree_offset.
    change (Spec.noteOfDegree defaultScaleSpec 13) with 83%Z.
    cbn [octaveOffset]. lia.
  - rewrite (proj1 (Qlt_alt y 0) Hy) in Hd.
    rewrite (midiNoteIn_of_degree spec _ _ 0) by done.
    f_equal. unfold spec. rewrite noteOfDegree_offset.
    change (Spec.noteOfDegree defaultScaleSpec 0) with 60%Z.
    cbn [octaveOffset]. lia.
  - rewrite (proj1 (Qeq_alt y 0) Hy) in Hd. by apply midiNoteIn_NaN.
Qed.

Lemma zero_height_notes_witness :
  currentMidiNoteOf "#FF0000" (Fin 200) (Fin 0) = int (83 + 0).
Proof. apply (zero_height_notes "#FF0000" 200 0); reflexivity. Defined.

Lemma slotOf_zero_width (width : Q) (point : Point.t) :
  width == 0 -> slotOf width point = None.
Proof.
  intros Hw. unfold slotOf, timeSlotIndexOf. cbv zeta. rewrite int_sub.
  change (numTimeSteps - 1)%Z with 31%Z.
  change (mapRange (Fin (Point.x point)) (int 0) (Fin width) (int 0) (int 31))
    with (mapRange (Fin (Point.x point)) (Fin 0) (Fin width) (int 0) (int 31)).
  rewrite (mapRange_collapsed (Point.x point) 0 width 31) by (done || lia).
  by destruct (Point.x point ?= 0).
Qed.

Lemma foldl_pushPoint_none width (l : list Point.t) slots :
  (forall p, slotOf width p = None) -> foldl (pushPoint width) slots l = slots.
Proof.
  intros Hnone. revert slots. induction l as [|p l IH]; intros slots; [done|].
  cbn [foldl]. by rewrite pushPoint_slotOf, Hnone, IH.
Qed.

(** X8.  On a canvas of width 0 every sample fails the slot guard, so a
    play emits no tone whatever the store holds. *)
Theorem zero_width_silent (env : Env) (st : State) :
  canvas_width env == 0 -> toneEvents (play env st) = [].
Proof.
  intros Hw. unfold play. destruct (isEmpty st); [done|].
  cbn [toneEvents]. unfold toneEventsOf, notesInTimeSlotsOf.
  rewrite foldl_pushPoint_none by (intros p; by apply slotOf_zero_width).
  reflexivity.
Qed.

Lemma zero_width_silent_witness :
  toneEvents
    (play {| canvas_width := 0; canvas_height := 400;
             minBrushSize := int 2; maxBrushSize := int 20;
             currentTime := int 0; fresh_context := running |}
       example_state) = [].
Proof. apply zero_width_silent. reflexivity. Defined.

(** ** Which samples are played, and when *)

Lemma slotOf_fin (width : Q) (point : Point.t) :
  ~ width == 0 ->
  slotOf width point
  = let k := Qfloor (Point.x point * 31 / width) in
    if (0 <=? k)%Z && (k <? 32)%Z then Some (Z.to_nat k) else None.
Proof.
  intros Hw. unfold slotOf. cbv zeta.
  rewrite timeSlotIndexOf_fin, geb_int, ltb_int, numTimeSteps_eq by done.
  unfold to_index, int. by rewrite Qfloor_Z.
Qed.

Lemma slot_quotient (x width : Q) :
  0 < width -> x * 31 / width * width == 31 * x.
Proof. intros Hw. field. lra. Qed.

(** In exact arithmetic: on a canvas of positive width a sample is left
    out of the slots exactly when its [x] is negative or at least 32/31 of
    the width. *)
Lemma sample_dropped_iff_exact (width : Q) (point : Point.t) :
  0 < width ->
  slotOf width point = None
  <-> Point.x point < 0 \/ 32 * width <= 31 * Point.x point.
Proof.
  intros Hw. rewrite slotOf_fin by lra. cbv zeta.
  set (q := Point.x point * 31 / width).
  pose proof (slot_quotient (Point.x point) width Hw) as Hq. fold q in Hq.
  pose proof (Qfloor_ge_iff 0 q) as H0. change (inject_Z 0) with 0 in H0.
  pose proof (Qfloor_lt_iff 32 q) as H32. change (inject_Z 32) with 32 in H32.
  pose proof (Qmult_le_r 0 q width Hw) as M0.
  pose proof (Qmult_lt_r q 32 width Hw) as M32.
  destruct (Z.leb_spec 0 (Qfloor q)) as [Hge|Hlt];
    destruct (Z.ltb_spec (Qfloor q) 32) as [Hlt32|Hge32]; cbn [andb].
  - split; [done|]. apply H0, M0 in Hge. apply H32, M32 in Hlt32.
    intros [|]; lra.
  - split; [intros _|done]. right.
    destruct (Qlt_le_dec (31 * Point.x point) (32 * width)) as [Hc|]; [|done].
    assert (q * width < 32 * width) as Hc' by lra.
    apply M32, H32 in Hc'. lia.
  - split; [intros _|done]. left.
    destruct (Qlt_le_dec (Point.x point) 0) as [|Hc]; [done|].
    assert (0 * width <= q * width) as Hc' by lra.
    apply M0, H0 in Hc'. lia.
  - split; [intros _|done]. left.
    destruct (Qlt_le_dec (Point.x point) 0) as [|Hc]; [done|].
    assert (0 * width <= q * width) as Hc' by lra.
    apply M0, H0 in Hc'. lia.
Qed.

(** On the page's canvas at its full width, 600, the slot index computed
    in double precision is the exact one on every whole pixel column, from
    100 columns left of the canvas to 100 columns right of it. *)
Lemma b64_slot_around_canvas :
  Forall (fun x =>
            timeSlotIndexWith mapRange_b64 600
              (Point.make (inject_Z x) 0 "#FF0000" 5)
            = timeSlotIndexOf 600 (Point.make (inject_Z x) 0 "#FF0000" 5))
    (pixels (-100) 700).
Proof. apply forallb_number_eqb. vm_compute. reflexivity. Qed.

(** X9.  Whole pixels.  On a canvas whose width is a positive whole
    number, a sample on a whole pixel column is left out of the slots
    exactly when its [x] is negative or at least 32/31 of the width; a
    sample a little to the right of the canvas still lands in the last
    slot.  On the page's canvas at its full width, 600, the handler run in
    double precision takes the same decision, and picks the same slot, on
    every column from 100 left of the canvas to 100 right of it. *)
Theorem sample_dropped_iff (width x : Z) (point : Point.t) :
  (0 < width < 2147483648)%Z -> (-2147483648 < x < 2147483648)%Z ->
  Point.x point = inject_Z x ->
  (slotOf (inject_Z width) point = None
   <-> (x < 0 \/ 32 * width <= 31 * x)%Z)
  /\ (width = 600%Z -> (-100 <= x <= 700)%Z ->
      slotWith mapRange_b64 (inject_Z width) point
      = slotOf (inject_Z width) point).
Proof.
  intros Hw Hx Ex. split.
  - rewrite sample_dropped_iff_exact
      by (change 0 with (inject_Z 0); rewrite <- Zlt_Qlt; lia).
    rewrite Ex. change 0 with (inject_Z 0).
    change 32 with (inject_Z 32). change 31 with (inject_Z 31).
    by rewrite <- !inject_Z_mult, <- Zlt_Qlt, <- Zle_Qle.
  - intros -> Hcol.
    pose proof b64_slot_around_canvas as Hcols. rewrite Forall_forall in Hcols.
    specialize (Hcols x (proj2 (elem_of_pixels _ _ _) Hcol)).
    unfold slotWith, slotOf. cbv zeta.
    assert (timeSlotIndexWith mapRange_b64 (inject_Z 600) point
            = timeSlotIndexOf (inject_Z 600) point) as ->; [|done].
    unfold timeSlotIndexWith, timeSlotIndexOf in *. cbn [Point.x] in Hcols.
    rewrite Ex. exact Hcols.
Qed.

Lemma sample_dropped_iff_witness :
  (slotOf (inject_Z 600) (Point.make 620 10 "#FF0000" 5) = None
   <-> (620 < 0 \/ 32 * 600 <= 31 * 620)%Z)
  /\ slotWith mapRange_b64 (inject_Z 600) (Point.make 620 10 "#FF0000" 5)
     = slotOf (inject_Z 600) (Point.make 620 10 "#FF0000" 5).
Proof.
  destruct (sample_dropped_iff 600 620 (Point.make 620 10 "#FF0000" 5))
    as [Hdrop Hb64]; [lia | lia | reflexivity |].
  split; [exact Hdrop | apply Hb64; [reflexivity | lia]].
Defined.

(** X10.  Slots follow [x]: on a canvas of positive width, of two samples
    that both land in a slot the one further right is in the same or a
    later slot. *)
Theorem slot_monotone (width : Q) (p1 p2 : Point.t) (i1 i2 : nat) :
  0 < width -> Point.x p1 <= Point.x p2 ->
  slotOf width p1 = Some i1 -> slotOf width p2 = Some i2 ->
  (i1 <= i2)%nat.
Proof.
  intros Hw Hx. rewrite !slotOf_fin by lra. cbv zeta.
  set (q1 := Point.x p1 * 31 / width). set (q2 := Point.x p2 * 31 / width).
  assert (q1 <= q2) as Hq.
  { apply (Qmult_le_r q1 q2 width Hw). unfold q1, q2.
    rewrite !slot_quotient by done. lra. }
  apply Qfloor_resp_le in Hq. clearbody q1 q2.
  destruct (_ && _); [|done]. destruct (_ && _); [|done].
  intros [= <-] [= <-]. lia.
Qed.

Lemma slot_monotone_witness : (0 <= 30)%nat.
Proof.
  apply (slot_monotone 600 (Point.make 10 400 "#FF0000" 5)
           (Point.make 590 0 "#00FF00" 20) 0 30);
    (reflexivity || by vm_compute).
Defined.

Lemma playSlot_cases env i (g : list Point.t) :
  playSlot env i g = []
  \/ exists rep, rep ∈ g /\ playSlot env i g = [toneOf env i rep].
Proof.
  destruct g as [|p g]; [by left|]. right.
  destruct (playSlot_first_least env i (p :: g)) as (rep & -> & l1 & l2 & -> & _);
    [done|].
  exists rep. split; [|done]. apply elem_of_app. right. by left.
Qed.

Lemma playSlot_length env i (g : list Point.t) :
  (length (playSlot env i g) <= 1)%nat /\ (length (playSlot env i g) <= length g)%nat.
Proof.
  destruct g as [|p g]; [rewrite playSlot_nil; cbn; lia|].
  destruct (playSlot_cases env i (p :: g)) as [->|(rep & _ & ->)];
    cbn [length]; lia.
Qed.

Lemma slot_events_sorted env (slots : list (list Point.t)) (k : nat) :
  let evs := mjoin (imap (fun j => playSlot env (k + j)%nat) slots) in
  StronglySorted lt (slotIndex <$> evs)
  /\ Forall (fun e => k <= slotIndex e < k + length slots)%nat evs
  /\ (length evs <= length slots)%nat
  /\ (length evs <= length (mjoin slots))%nat.
Proof.
  cbv zeta. revert k. induction slots as [|g slots IH]; intros k.
  - cbn. repeat split; constructor.
  - rewrite imap_cons, imap_playSlot_shift.
    change (mjoin (g :: slots)) with (g ++ mjoin slots).
    change (mjoin (?x :: ?l)) with (x ++ mjoin l).
    destruct (IH (S k)) as (Hs & Hr & Hl & Hm).
    rewrite Nat.add_0_r. rewrite !length_app. cbn [length].
    pose proof (playSlot_length env k g) as [Hg1 Hg2].
    destruct (playSlot_cases env k g) as [E|(rep & _ & E)];
      rewrite E in Hg1, Hg2 |- *.
    + cbn [app length]. repeat split; [done| |lia|lia].
      eapply Forall_impl; [exact Hr|]. cbn. intros; lia.
    + cbn [app fmap list_fmap]. repeat split.
      * constructor; [done|]. apply Forall_fmap.
        eapply Forall_impl; [exact Hr|]. cbn. intros; lia.
      * constructor; [cbn; lia|].
        eapply Forall_impl; [exact Hr|]. cbn. intros; lia.
      * cbn [length] in *. lia.
      * cbn [length] in *. lia.
Qed.

Lemma pushPoint_total_length width slots p :
  (length (mjoin (pushPoint width slots p)) <= S (length (mjoin slots)))%nat.
Proof.
  rewrite pushPoint_slotOf. destruct (slotOf width p) as [i|]; [|lia].
  revert i. induction slots as [|g slots IH]; intros i.
  { change (alter _ i []) with ([] : list (list Point.t)). lia. }
  destruct i as [|i].
  - change (alter ?f 0%nat (g :: slots)) with (f g :: slots).
    change (mjoin (?x :: ?l)) with (x ++ mjoin l).
    rewrite !length_app. cbn [length]. lia.
  - change (alter ?f (S i) (g :: slots)) with (g :: alter f i slots).
    change (mjoin (?x :: ?l)) with (x ++ mjoin l).
    rewrite !length_app. specialize (IH i). lia.
Qed.

Lemma foldl_pushPoint_total_length width (l : list Point.t) slots :
  (length (mjoin (foldl (pushPoint width) slots l))
   <= length (mjoin slots) + length l)%nat.
Proof.
  revert slots. induction l as [|p l IH]; intros slots; cbn [foldl length]; [lia|].
  specialize (IH (pushPoint width slots p)).
  pose proof (pushPoint_total_length width slots p). lia.
Qed.

Lemma notesInTimeSlotsOf_total_length width pts :
  (length (mjoin (notesInTimeSlotsOf width pts)) <= length pts)%nat.
Proof.
  unfold notesInTimeSlotsOf.
  pose proof (foldl_pushPoint_total_length width (sortedPointsOf pts)
                (replicate (Z.to_nat numTimeSteps) [])) as H.
  rewrite (Permutation_length (sortedPointsOf_perm pts)) in H.
  assert (length (mjoin (replicate (Z.to_nat numTimeSteps) ([] : list Point.t)))
          = 0%nat) as E by reflexivity.
  lia.
Qed.

(** X11.  The tones of a play are emitted in strictly increasing slot
    order, every slot index is below 32, and there are at most 32 tones
    and at most as many as stored samples. *)
Theorem tones_in_slot_order (env : Env) (pts : list Point.t) :
  StronglySorted lt (slotIndex <$> toneEventsOf env pts)
  /\ Forall (fun e => (slotIndex e < 32)%nat) (toneEventsOf env pts)
  /\ (length (toneEventsOf env pts) <= 32)%nat
  /\ (length (toneEventsOf env pts) <= length pts)%nat.
Proof.
  unfold toneEventsOf.
  rewrite (imap_ext _ (fun j => playSlot env (0 + j)%nat)) by done.
  destruct (slot_events_sorted env (notesInTimeSlotsOf (canvas_width env) pts) 0)
    as (Hs & Hr & Hl & Hm).
  rewrite notesInTimeSlotsOf_length in Hr, Hl.
  pose proof (notesInTimeSlotsOf_total_length (canvas_width env) pts).
  repeat split; [done| |done|lia].
  eapply Forall_impl; [exact Hr|]. cbn. intros; lia.
Qed.

(** X12.  With a finite audio clock, the tone of slot [i] is scheduled a
    quarter of a second per slot after the clock: at [now + i / 4], which
    is at most 7.75 s after [now]. *)
Theorem tones_on_the_grid (env : Env) (pts : list Point.t) (now : Q)
    (e : ToneEvent) :
  currentTime env = Fin now ->
  e ∈ toneEventsOf env pts ->
  exists t : Q,
    scheduledTime e = Fin t
    /\ t == now + inject_Z (Z.of_nat (slotIndex e)) / 4
    /\ now <= t <= now + 7.75.
Proof.
  intros Hnow He.
  destruct (toneEventsOf_elem env pts e He) as (i & rep & Hi & _ & ->).
  cbn [toneOf scheduledTime slotIndex]. rewrite Hnow.
  exists (now + inject_Z (Z.of_nat i) * (inject_Z 8 / inject_Z 32)).
  split; [reflexivity|].
  assert (0 <= inject_Z (Z.of_nat i) <= 31) as Hr.
  { split.
    - change 0 with (inject_Z 0). rewrite <- Zle_Qle. lia.
    - change 31 with (inject_Z 31). rewrite <- Zle_Qle. lia. }
  assert (inject_Z (Z.of_nat i) * (inject_Z 8 / inject_Z 32)
          == inject_Z (Z.of_nat i) / 4) as E by field.
  split; [by rewrite E|]. rewrite E.
  assert (inject_Z (Z.of_nat i) / 4 == inject_Z (Z.of_nat i) * (1 # 4)) as ->
    by field.
  lra.
Qed.

Lemma tones_on_the_grid_witness :
  exists t : Q,
    scheduledTime (toneOf example_env_later 30 (Point.make 590 0 "#FF0000" 5))
    = Fin t
    /\ 12.5 <= t <= 12.5 + 7.75.
Proof.
  destruct (tones_on_the_grid example_env_later
              [Point.make 10 400 "#FF0000" 5; Point.make 590 0 "#FF0000" 5]
              12.5 (toneOf example_env_later 30 (Point.make 590 0 "#FF0000" 5)))
    as (t & H1 & _ & H2).
  - reflexivity.
  - vm_compute. apply list_elem_of_further, list_elem_of_here.
  - exists t. split; [exact H1 | exact H2].
Defined.

(** X13.  With brush bounds [lo < hi] and every stored size between
    them, each tone of a play has a loudness between 0.2 and 0.5 and a
    duration between 0.8 and 1.5 seconds. *)
Theorem played_loudness_and_duration (env : Env) (pts : list Point.t)
    (lo hi : Q) (e : ToneEvent) :
  minBrushSize env = Fin lo -> maxBrushSize env = Fin hi -> lo < hi ->
  Forall (fun p => lo <= Point.size p <= hi) pts ->
  e ∈ toneEventsOf env pts ->
  (exists v, velocity e = Fin v /\ 0.2 <= v <= 0.5)
  /\ (exists d, noteDuration e = Fin d /\ 0.8 <= d <= 1.5).
Proof.
  intros Hmin Hmax Hlt Hsizes He.
  destruct (toneEventsOf_loudness env pts lo hi e Hmin Hmax Hlt Hsizes He)
    as (Hv & Hd & _).
  by split.
Qed.

Lemma played_loudness_and_duration_witness :
  (exists v,
     velocity (toneOf example_env 30 (Point.make 590 0 "#FF0000" 5)) = Fin v
     /\ 0.2 <= v <= 0.5)
  /\ (exists d,
        noteDuration (toneOf example_env 30 (Point.make 590 0 "#FF0000" 5))
        = Fin d
        /\ 0.8 <= d <= 1.5).
Proof.
  apply (played_loudness_and_duration example_env
           [Point.make 10 400 "#FF0000" 5; Point.make 590 0 "#FF0000" 5] 2 20).
  - reflexivity.
  - reflexivity.
  - reflexivity.
  - repeat constructor; by vm_compute.
  - vm_compute. apply list_elem_of_further, list_elem_of_here.
Defined.

(** X14.  Under the same conditions and with a finite audio clock, every
    oscillator of a play starts at or after the clock, within 7.75 s of
    it, stops after it started, and has stopped 9.35 s after the clock: the
    sound of a play is over within that time. *)
Theorem sound_lifetime (Math_pow : number -> number -> number)
    (env : Env) (pts : list Point.t) (lo hi now : Q) (tone : Tone) (o : Overtone) :
  minBrushSize env = Fin lo -> maxBrushSize env = Fin hi -> lo < hi ->
  Forall (fun p => lo <= Point.size p <= hi) pts ->
  currentTime env = Fin now ->
  tone ∈ soundOf Math_pow (toneEventsOf env pts) ->
  o ∈ overtones tone ->
  exists t0 t1 : Q,
    osc_start o = Fin t0 /\ osc_stop o = Fin t1
    /\ now <= t0 <= now + 7.75 /\ t0 < t1 /\ t1 <= now + 9.35.
Proof.
  intros Hmin Hmax Hlt Hsizes Hnow Htone Ho. unfold soundOf in Htone.
  apply list_elem_of_fmap in Htone as (e & -> & He).
  destruct (toneEventsOf_loudness env pts lo hi e Hmin Hmax Hlt Hsizes He)
    as (_ & (d & Hd & Hdr) & _).
  destruct (toneEventsOf_elem env pts e He) as (i & rep & Hi & _ & Ee).
  assert (scheduledTime e
          = Fin (now + inject_Z (Z.of_nat i) * (inject_Z 8 / inject_Z 32))) as Ht.
  { rewrite Ee. cbn [toneOf scheduledTime]. by rewrite Hnow. }
  assert (0 <= inject_Z (Z.of_nat i) <= 31) as Hr.
  { split.
    - change 0 with (inject_Z 0). rewrite <- Zle_Qle. lia.
    - change 31 with (inject_Z 31). rewrite <- Zle_Qle. lia. }
  assert (inject_Z (Z.of_nat i) * (inject_Z 8 / inject_Z 32)
          == inject_Z (Z.of_nat i) * (1 # 4)) as E by field.
  unfold createMusicBoxTone in Ho. cbn [overtones default] in Ho.
  rewrite Ht, Hd in Ho. unfold overtoneRatios in Ho. cbn [imap] in Ho.
  set (t0 := now + inject_Z (Z.of_nat i) * (inject_Z 8 / inject_Z 32)) in *.
  exists t0, (t0 + d + 0.1).
  assert (now <= t0 <= now + 7.75) by (unfold t0; rewrite E; lra).
  repeat (apply elem_of_cons in Ho as [->|Ho];
          [cbn [osc_start osc_stop]; repeat split; (reflexivity || lra)|]).
  by apply elem_of_nil in Ho.
Qed.

Lemma sound_lifetime_witness :
  Forall
    (fun tone =>
       Forall (fun o => exists t0 t1 : Q,
                   osc_start o = Fin t0 /\ osc_stop o = Fin t1
                   /\ 0 <= t0 <= 0 + 7.75 /\ t0 < t1 /\ t1 <= 0 + 9.35)
         (overtones tone))
    (soundOf (fun _ _ => int 1)
       (toneEventsOf example_env [Point.make 590 0 "#FF0000" 5])).
Proof.
  apply Forall_forall. intros tone Htone. apply Forall_forall. intros o Ho.
  apply (sound_lifetime (fun _ _ => int 1) example_env
           [Point.make 590 0 "#FF0000" 5] 2 20 0 tone o);
    try reflexivity; try assumption.
  repeat constructor; by vm_compute.
Defined.

(** ** What the melody depends on *)

Lemma notesInTimeSlotsOf_ext width pts1 pts2 :
  (forall i, slotSamples width pts1 i = slotSamples width pts2 i) ->
  notesInTimeSlotsOf width pts1 = notesInTimeSlotsOf width pts2.
Proof.
  intros Hsame. apply list_eq. intros i.
  destruct (decide (i < 32)%nat) as [Hi|Hi].
  - by rewrite !notesInTimeSlotsOf_lookup, Hsame.
  - rewrite !lookup_ge_None_2; [done|..];
      rewrite notesInTimeSlotsOf_length; lia.
Qed.

Lemma toneEventsOf_slot_lookup env pts i :
  filter (fun e => slotIndex e = i) (toneEventsOf env pts)
  = from_option (playSlot env i) []
      (notesInTimeSlotsOf (canvas_width env) pts !! i).
Proof.
  unfold toneEventsOf.
  rewrite (imap_ext _ (fun j => playSlot env (0 + j)%nat)) by done.
  by rewrite filter_slot_events, decide_True, Nat.sub_0_r by lia.
Qed.

(** X15.  A play depends on the samples that land in a slot only: the
    samples the guard leaves out can be removed from the store without
    changing any tone. *)
Theorem dropped_samples_do_not_matter (env : Env) (pts : list Point.t) :
  toneEventsOf env pts
  = toneEventsOf env
      (filter (fun p => is_Some (slotOf (canvas_width env) p)) pts).
Proof.
  unfold toneEventsOf. f_equal. f_equal.
  apply notesInTimeSlotsOf_ext. intros i. rewrite !slotSamples_filter. f_equal.
  rewrite list_filter_filter_l; [done|]. intros p ->. by eexists.
Qed.

(** X16.  A play is local to the slots: storing one more sample, anywhere
    in the store, leaves the tones of every slot other than the sample's
    own unchanged. *)
Theorem other_slots_unchanged
    (env : Env) (pts1 pts2 : list Point.t) (p : Point.t) (i : nat) :
  slotOf (canvas_width env) p ≠ Some i ->
  filter (fun e => slotIndex e = i) (toneEventsOf env (pts1 ++ p :: pts2))
  = filter (fun e => slotIndex e = i) (toneEventsOf env (pts1 ++ pts2)).
Proof.
  intros Hp. rewrite !toneEventsOf_slot_lookup.
  destruct (decide (i < 32)%nat) as [Hi|Hi].
  - rewrite !notesInTimeSlotsOf_lookup, !slotSamples_filter by done.
    rewrite !filter_app, filter_cons_False by done. done.
  - rewrite !lookup_ge_None_2; [done|..];
      rewrite notesInTimeSlotsOf_length; lia.
Qed.

Lemma other_slots_unchanged_witness :
  filter (fun e => slotIndex e = 0%nat)
    (toneEventsOf example_env
       ([Point.make 10 400 "#FF0000" 5] ++ Point.make 590 0 "#00FF00" 20 :: []))
  = filter (fun e => slotIndex e = 0%nat)
      (toneEventsOf example_env ([Point.make 10 400 "#FF0000" 5] ++ [])).
Proof.
  apply (other_slots_unchanged example_env [Point.make 10 400 "#FF0000" 5] []
           (Point.make 590 0 "#00FF00" 20) 0).
  by vm_compute.
Defined.

(** X17.  When no two different samples share an [x], the melody does not
    depend on the order in which the samples were drawn: two stores
    holding the same samples in any order play the same tones. *)
Theorem drawing_order_irrelevant (env : Env) (pts1 pts2 : list Point.t) :
  pts1 ≡ₚ pts2 ->
  (forall a b, a ∈ pts1 -> b ∈ pts1 -> Point.x a == Point.x b -> a = b) ->
  sortedPointsOf pts1 = sortedPointsOf pts2
  /\ toneEventsOf env pts1 = toneEventsOf env pts2.
Proof.
  intros Hperm Hdistinct.
  assert (sortedPointsOf pts1 = sortedPointsOf pts2) as Hsorted.
  { apply (StronglySorted_unique_strong (key_le Point.x)).
    - intros a b Ha Hb Hab Hba. apply Hdistinct.
      + by rewrite sortedPointsOf_perm in Ha.
      + by rewrite sortedPointsOf_perm, <- Hperm in Hb.
      + unfold key_le in *. lra.
    - apply sortedPointsOf_sorted.
    - apply sortedPointsOf_sorted.
    - by rewrite !sortedPointsOf_perm. }
  split; [done|]. unfold toneEventsOf, notesInTimeSlotsOf. by rewrite Hsorted.
Qed.

Lemma drawing_order_irrelevant_witness :
  toneEventsOf example_env
    [Point.make 10 400 "#FF0000" 5; Point.make 590 0 "#00FF00" 20]
  = toneEventsOf example_env
      [Point.make 590 0 "#00FF00" 20; Point.make 10 400 "#FF0000" 5].
Proof.
  apply (drawing_order_irrelevant example_env
           [Point.make 10 400 "#FF0000" 5; Point.make 590 0 "#00FF00" 20]
           [Point.make 590 0 "#00FF00" 20; Point.make 10 400 "#FF0000" 5]).
  - apply Permutation_swap.
  - intros a b Ha Hb.
    repeat (apply elem_of_cons in Ha as [->|Ha]);
      repeat (apply elem_of_cons in Hb as [->|Hb]);
      try (by apply elem_of_nil in Ha); try (by apply elem_of_nil in Hb);
      try reflexivity; by vm_compute.
Defined.

(** ** Colours *)

Lemma upper_ascii_idem (c : ascii) : upper_ascii (upper_ascii c) = upper_ascii c.
Proof. destruct c as [[] [] [] [] [] [] [] []]; reflexivity. Qed.

Lemma toUpperCase_idem (s : string) : toUpperCase (toUpperCase s) = toUpperCase s.
Proof.
  induction s as [|c s IH]; [done|].
  cbn [toUpperCase]. by rewrite upper_ascii_idem, IH.
Qed.

(** X18.  The colour lookup ignores the case of the letters: a colour and
    its upper-cased form get the same octave offset and scale, hence the
    same note at every height. *)
Theorem color_case_insensitive (color : string) (y canvasHeight : number) :
  getColorOctaveAndScale (toUpperCase color) = getColorOctaveAndScale color
  /\ currentMidiNoteOf (toUpperCase color) y canvasHeight
     = currentMidiNoteOf color y canvasHeight.
Proof.
  assert (getColorOctaveAndScale (toUpperCase color)
          = getColorOctaveAndScale color) as E
    by (unfold getColorOctaveAndScale; by rewrite toUpperCase_idem).
  split; [done|]. unfold currentMidiNoteOf. by rewrite E.
Qed.

(** ** Drawing *)

Lemma handle_keeps_prefix st ev :
  is_clear ev = false -> drawnPoints st `prefix_of` drawnPoints (handle st ev).
Proof.
  destruct ev; cbn [is_clear handle]; try done; intros _.
  - eexists. reflexivity.
  - unfold draw. destruct (isDrawing st); [eexists; reflexivity | done].
Qed.

(** X19.  The store is append-only: through any sequence of actions
    without a click on "clear", the samples already stored stay where they
    are, unchanged, at the front of the store. *)
Theorem store_append_only (st : State) (evs : list UIEvent) :
  Forall (fun ev => is_clear ev = false) evs ->
  drawnPoints st `prefix_of` drawnPoints (handleAll st evs).
Proof.
  unfold handleAll. revert st. induction evs as [|ev evs IH]; intros st Hevs.
  - done.
  - apply Forall_cons_1 in Hevs as [Hev Hevs]. cbn [foldl].
    etrans; [by apply handle_keeps_prefix | by apply IH].
Qed.

Lemma store_append_only_witness :
  drawnPoints example_state
  `prefix_of`
  drawnPoints
    (handleAll example_state
       [clickBrush "#00FF00"; mousedown 30 40; mousemove 31 42; mouseup]).
Proof. apply store_append_only. by repeat constructor. Defined.

(** The sample a position is stored as, with the brush of a state. *)
Lemma addPoint_drawnPoints px py st :
  drawnPoints (addPoint px py st)
  = drawnPoints st
    ++ [Point.make px py (currentBrushColor st) (currentBrushSize st)].
Proof. reflexivity. Qed.

Lemma moves_while_drawing st (ps : list (Q * Q)) :
  isDrawing st = true ->
  let st' := handleAll st ((fun p => mousemove p.1 p.2) <$> ps) in
  drawnPoints st'
  = drawnPoints st
    ++ ((fun p => Point.make p.1 p.2 (currentBrushColor st) (currentBrushSize st))
          <$> ps)
  /\ isDrawing st' = true
  /\ currentBrushColor st' = currentBrushColor st
  /\ currentBrushSize st' = currentBrushSize st
  /\ audioCtx st' = audioCtx st.
Proof.
  cbv zeta. unfold handleAll. revert st.
  induction ps as [|p ps IH]; intros st Hd.
  - cbn. by rewrite app_nil_r.
  - cbn [fmap list_fmap foldl handle]. unfold draw. rewrite Hd.
    destruct (IH (addPoint p.1 p.2 st) Hd) as (E1 & E2 & E3 & E4 & E5).
    rewrite E1, E2, E3, E4, E5. repeat split.
    rewrite addPoint_drawnPoints, <- app_assoc. done.
Qed.

(** X20.  A stroke (press, moves, release) stores exactly one sample per
    position, press first, in the order of the positions, each with the
    brush colour and size current at the press, and leaves the pointer
    released. *)
Theorem stroke_stores_its_points (st : State) (p0 : Q * Q) (ps : list (Q * Q)) :
  let st' :=
    handleAll st (mousedown p0.1 p0.2
                  :: ((fun p => mousemove p.1 p.2) <$> ps) ++ [mouseup]) in
  drawnPoints st'
  = drawnPoints st
    ++ ((fun p => Point.make p.1 p.2 (currentBrushColor st) (currentBrushSize st))
          <$> p0 :: ps)
  /\ isDrawing st' = false.
Proof.
  cbv zeta. unfold handleAll. cbn [foldl handle]. rewrite foldl_app.
  cbn [foldl handle].
  destruct (moves_while_drawing (startDrawing p0.1 p0.2 st) ps)
    as (E1 & _); [done|].
  unfold handleAll in E1. split; [|done].
  cbn [stopDrawing with_isDrawing drawnPoints]. rewrite E1.
  cbn [fmap list_fmap]. unfold startDrawing.
  rewrite addPoint_drawnPoints. cbn. by rewrite <- app_assoc.
Qed.

Lemma idle_event_keeps_store st ev :
  isDrawing st = false ->
  match ev with mousedown _ _ | clickClear => False | _ => True end ->
  drawnPoints (handle st ev) = drawnPoints st
  /\ isDrawing (handle st ev) = false.
Proof. intros Hd. destruct ev; cbn; try done. unfold draw. by rewrite Hd. Qed.

(** X21.  While the pointer is released, moving it, releasing it again and
    changing the brush store nothing: only a press adds a sample. *)
Theorem idle_moves_store_nothing (st : State) (evs : list UIEvent) :
  isDrawing st = false ->
  Forall (fun ev => match ev with
                    | mousedown _ _ | clickClear => False
                    | _ => True
                    end) evs ->
  drawnPoints (handleAll st evs) = drawnPoints st.
Proof.
  unfold handleAll. revert st. induction evs as [|ev evs IH]; intros st Hd Hevs.
  - done.
  - apply Forall_cons_1 in Hevs as [Hev Hevs]. cbn [foldl].
    destruct (idle_event_keeps_store st ev Hd Hev) as [E1 E2].
    by rewrite IH, E1.
Qed.

Lemma idle_moves_store_nothing_witness :
  drawnPoints
    (handleAll example_state
       [mousemove 5 5; clickBrush "#0000FF"; mousemove 9 9; mouseout])
  = drawnPoints example_state.
Proof. apply idle_moves_store_nothing; [reflexivity | by repeat constructor]. Defined.

(** X22.  Every stored sample has a colour that was the brush colour at
    some point: if the colours of the samples in the store, the current
    brush colour and every colour clicked later satisfy a property, so do
    the colours of all the samples stored in the end. *)
Theorem stored_colours_come_from_brushes
    (C : string -> Prop) (st : State) (evs : list UIEvent) :
  Forall (fun p => C (Point.color p)) (drawnPoints st) ->
  C (currentBrushColor st) ->
  Forall (fun ev => match ev with clickBrush c => C c | _ => True end) evs ->
  Forall (fun p => C (Point.color p)) (drawnPoints (handleAll st evs))
  /\ C (currentBrushColor (handleAll st evs)).
Proof.
  unfold handleAll. revert st.
  induction evs as [|ev evs IH]; intros st Hpts Hcur Hevs; [done|].
  apply Forall_cons_1 in Hevs as [Hev Hevs]. cbn [foldl]. apply IH; [| |done].
  - destruct ev; cbn [handle]; try exact Hpts.
    + unfold startDrawing. rewrite addPoint_drawnPoints.
      apply Forall_app. split; [exact Hpts|]. repeat constructor. exact Hcur.
    + unfold draw. destruct (isDrawing st); [|exact Hpts].
      rewrite addPoint_drawnPoints.
      apply Forall_app. split; [exact Hpts|]. repeat constructor. exact Hcur.
    + constructor.
  - destruct ev; cbn [handle]; try exact Hcur; try exact Hev.
    unfold draw. destruct (isDrawing st); exact Hcur.
Qed.

Lemma stored_colours_come_from_brushes_witness :
  Forall (fun p => recognized (Point.color p))
    (drawnPoints
       (handleAll example_empty_state
          [mousedown 10 20; clickBrush "#00ff00"; mousedown 30 40; mouseup])).
Proof.
  apply (stored_colours_come_from_brushes recognized example_empty_state).
  - constructor.
  - vm_compute. apply list_elem_of_here.
  - repeat constructor.
Defined.

(** ** What a play leaves behind *)

(** X23.  A play changes neither the store nor the brush nor the drawing
    flag.  On an empty store it returns before touching the audio context;
    otherwise the audio context exists afterwards. *)
Theorem play_effects (env : Env) (st : State) :
  let st' := state_after (play env st) in
  drawnPoints st' = drawnPoints st
  /\ currentBrushColor st' = currentBrushColor st
  /\ currentBrushSize st' = currentBrushSize st
  /\ isDrawing st' = isDrawing st
  /\ (drawnPoints st = [] -> audioCtx st' = audioCtx st)
  /\ (drawnPoints st ≠ [] -> is_Some (audioCtx st')).
Proof.
  cbv zeta. unfold play, isEmpty.
  destruct st as [d c b pts ctx]. cbn [drawnPoints].
  destruct pts as [|p pts]; cbn [length Nat.eqb state_after].
  - by repeat split.
  - unfold getAudioContext. destruct ctx as [[]|], (fresh_context env);
      cbn; repeat split; (done || by eexists).
Qed.

Lemma play_effects_witness :
  is_Some (audioCtx (state_after (play example_env example_state)))
  /\ audioCtx (state_after (play example_env example_empty_state)) = None.
Proof.
  split.
  - apply (play_effects example_env example_state). discriminate.
  - apply (play_effects example_env example_empty_state). reflexivity.
Defined.

(** ** Pointer positions *)

(** X24.  [getMousePos] gives the position relative to the canvas
    rectangle: for a mouse event whose client coordinates are finite and
    not 0 it is their offset from the rectangle's corner, and for a touch
    event (no client coordinates of its own) the offset of the first
    touch. *)
Theorem getMousePos_relative (rect : DOMRect) (evt : PointerEvent) :
  (forall cx cy : Q,
     clientX evt = Some (Fin cx) -> clientY evt = Some (Fin cy) ->
     ~ cx == 0 -> ~ cy == 0 ->
     getMousePos rect evt
     = Ok ((Fin cx - rect_left rect)%num, (Fin cy - rect_top rect)%num))
  /\ (forall t rest,
        clientX evt = None -> clientY evt = None ->
        touches evt = Some (t :: rest) ->
        getMousePos rect evt
        = Ok ((t.1 - rect_left rect)%num, (t.2 - rect_top rect)%num)).
Proof.
  split.
  - intros cx cy Ex Ey Hx Hy. unfold getMousePos, clientCoord.
    rewrite Ex, Ey. cbn [truthy].
    assert (Qeq_bool cx 0 = false) as ->
      by (destruct (Qeq_bool cx 0) eqn:E; [by apply Qeq_bool_iff in E | done]).
    assert (Qeq_bool cy 0 = false) as ->
      by (destruct (Qeq_bool cy 0) eqn:E; [by apply Qeq_bool_iff in E | done]).
    reflexivity.
  - intros t rest Ex Ey Et. unfold getMousePos, clientCoord, firstTouch.
    by rewrite Ex, Ey, Et.
Qed.

Lemma getMousePos_relative_witness :
  getMousePos {| rect_left := Fin 30; rect_top := Fin 80 |}
    {| clientX := Some (Fin 130); clientY := Some (Fin 95); touches := None |}
  = Ok ((Fin 130 - Fin 30)%num, (Fin 95 - Fin 80)%num)
  /\ getMousePos {| rect_left := Fin 30; rect_top := Fin 80 |}
       {| clientX := None; clientY := None;
          touches := Some [(Fin 40, Fin 90); (Fin 200, Fin 210)] |}
     = Ok ((Fin 40 - Fin 30)%num, (Fin 90 - Fin 80)%num).
Proof.
  split.
  - apply (getMousePos_relative {| rect_left := Fin 30; rect_top := Fin 80 |}
             {| clientX := Some (Fin 130); clientY := Some (Fin 95);
                touches := None |}); (reflexivity || by vm_compute).
  - apply (proj2 (getMousePos_relative
                    {| rect_left := Fin 30; rect_top := Fin 80 |}
                    {| clientX := None; clientY := None;
                       touches := Some [(Fin 40, Fin 90); (Fin 200, Fin 210)] |})
             (Fin 40, Fin 90) [(Fin 200, Fin 210)]); reflexivity.
Defined.

(** X25.  The edges of [getMousePos].  A mouse event with [clientX] equal
    to 0 (a pointer on the left edge of the viewport) loses its [x]: 0 is
    taken for a missing coordinate, there is no touch to fall back on, and
    the position's [x] is [NaN]; likewise for [clientY] and [y].  A touch
    event whose touch list is empty makes [getMousePos] throw. *)
Theorem getMousePos_edges (rect : DOMRect) (evt : PointerEvent) :
  (touches evt = None -> clientX evt = Some (int 0) ->
   exists y0, getMousePos rect evt = Ok (NaN, y0))
  /\ (touches evt = None -> clientY evt = Some (int 0) ->
      exists x0, getMousePos rect evt = Ok (x0, NaN))
  /\ (touches evt = Some [] -> clientX evt = None ->
      getMousePos rect evt = TypeError).
Proof.
  unfold getMousePos, clientCoord, firstTouch. repeat split.
  - intros -> ->. cbn. destruct (truthy (clientY evt)); by eexists.
  - intros -> ->. cbn.
    destruct (truthy (clientX evt));
      (destruct (ToNumber _ - rect_top rect)%num eqn:E; by eexists) || by eexists.
  - by intros -> ->.
Qed.

Lemma getMousePos_edges_witness :
  (exists y0,
     getMousePos {| rect_left := Fin 0; rect_top := Fin 80 |}
       {| clientX := Some (int 0); clientY := Some (Fin 95); touches := None |}
     = Ok (NaN, y0))
  /\ getMousePos {| rect_left := Fin 0; rect_top := Fin 80 |}
       {| clientX := None; clientY := None; touches := Some [] |}
     = TypeError.
Proof.
  split.
  - apply (getMousePos_edges {| rect_left := Fin 0; rect_top := Fin 80 |}
             {| clientX := Some (int 0); clientY := Some (Fin 95);
                touches := None |}); reflexivity.
  - apply (getMousePos_edges {| rect_left := Fin 0; rect_top := Fin 80 |}
             {| clientX := None; clientY := None; touches := Some [] |});
      reflexivity.
Defined.

(** ** The sorted copy of the store *)

(** X26.  The array a play works on, [[...drawnPoints].sort((a, b) => a.x -
    b.x)], holds the stored samples in ascending order of [x], and the
    samples of equal [x] in the order they were drawn. *)
Theorem sortedPoints_ascending_stable (pts : list Point.t) :
  sortedPointsOf pts ≡ₚ pts
  /\ StronglySorted (fun a b => Point.x a <= Point.x b) (sortedPointsOf pts)
  /\ forall k : Q,
       filter (fun p => Point.x p == k) (sortedPointsOf pts)
       = filter (fun p => Point.x p == k) pts.
Proof.
  split; [apply sortedPointsOf_perm|]. split; [apply sortedPointsOf_sorted|].
  intros k. apply (Array_sort_stable Point.x).
Qed.

